(** * goparallel: the worker pool of package [parallel]

    A shallow embedding of [parallel.go] as an interleaving transition
    system.  Every goroutine of [RunBlocking] (the coordinator itself,
    [populateQueue], [parallelizeWorkers] and the [evaluateQueue] workers)
    has a program counter; one transition is one channel operation, one
    [Execute] call or one delivery of SIGINT by the runtime.  The scheduler
    is a list of actions, so every run can be replayed by evaluation. *)

From Stdlib Require Import Lia ZArith.
From stdpp Require Import base list gmap.

(** ** Go channels *)

(** What one channel operation does to the goroutine that attempts it. *)
Inductive Outcome (A : Type) : Type :=
  | Ok (a : A)
  | Blocked
  | Panic.
Arguments Ok {A} a.
Arguments Blocked {A}.
Arguments Panic {A}.

(** A buffered channel, as made by [make(chan A, cap)] with [0 < cap]. *)
Record Chan (A : Type) : Type := MkChan {
  buf : list A;
  cap : nat;
  closed : bool
}.
Arguments MkChan {A} buf cap closed.
Arguments buf {A} c.
Arguments cap {A} c.
Arguments closed {A} c.

Definition make_chan {A : Type} (n : nat) : Chan A :=
  MkChan [] n false.

(** [c <- x]: panics on a closed channel, blocks while the buffer is full. *)
Definition chan_send {A : Type} (c : Chan A) (x : A) : Outcome (Chan A) :=
  if closed c then Panic
  else if length (buf c) <? cap c then Ok (MkChan (buf c ++ [x]) (cap c) (closed c))
  else Blocked.

(** [<-c]: takes the oldest buffered value; on a closed and drained channel
    it yields the zero value at once ([None] here, which is also how a
    [range] loop learns that it is over); otherwise it blocks. *)
Definition chan_recv {A : Type} (c : Chan A) : Outcome (option A * Chan A) :=
  match buf c with
  | x :: r => Ok (Some x, MkChan r (cap c) (closed c))
  | [] => if closed c then Ok (None, c) else Blocked
  end.

(** [close(c)]: panics when the channel is closed already. *)
Definition chan_close {A : Type} (c : Chan A) : Outcome (Chan A) :=
  if closed c then Panic else Ok (MkChan (buf c) (cap c) true).

(** ** Tasks *)

(** [type Tasker interface { Execute() }].  [T] is the type of the interface
    values handed to the pool, [M] the memory that [Execute] may write. *)
Class Tasker (T M : Type) := Execute : T → M → M.
Global Hint Mode Tasker ! - : typeclass_instances.

(** [var ErrTasksNotCompleted = errors.New(...)]; a Go [error] that is [nil]
    is [None]. *)
Inductive error : Type := ErrTasksNotCompleted.

(** ** Program counters *)

(** [populateQueue]. *)
Inductive ProducerPc (T : Type) : Type :=
  | PNotify                          (* lines 40-41, before signal.Notify *)
  | PRange (rest : list T)           (* line 42, [rest] still to range over *)
  | PSend (t : T) (rest : list T)    (* line 53, default branch taken *)
  | PPremature                       (* line 49, prematureEnd <- struct{}{} *)
  | PCloseAbort                      (* line 50 *)
  | PReturned.
Arguments PNotify {T}.
Arguments PRange {T} rest.
Arguments PSend {T} t rest.
Arguments PPremature {T}.
Arguments PCloseAbort {T}.
Arguments PReturned {T}.

(** [evaluateQueue]. *)
Inductive WorkerPc (T : Type) : Type :=
  | WRange                           (* line 71, receiving from jobsQueue *)
  | WExec (j : T)                    (* line 72, j.Execute() *)
  | WDoneSend                        (* line 74, doneChan <- struct{}{} *)
  | WExit.
Arguments WRange {T}.
Arguments WExec {T} j.
Arguments WDoneSend {T}.
Arguments WExit {T}.

(** A worker goroutine, with two history counters that the code does not
    keep: how many tasks it has executed and how many completion signals
    it has posted. *)
Record Worker (T : Type) : Type := MkWorker {
  wpc : WorkerPc T;
  processed : nat;
  signals : nat
}.
Arguments MkWorker {T} wpc processed signals.
Arguments wpc {T} w.
Arguments processed {T} w.
Arguments signals {T} w.

(** The loop of [RunBlocking], lines 97-111. *)
Inductive CoordPc : Type :=
  | CSelect
  | CReturned.

(** Who performs an operation on a channel. *)
Inductive Actor : Type :=
  | Producer
  | Coordinator
  | WorkerNo (i : nat).

(** ** The state of one run *)

Record State (T M : Type) : Type := MkState {
  (* package level *)
  workersNumber : nat;
  (* the caller's slice and the memory its tasks point into *)
  jobs : list T;
  mem : M;
  (* channels *)
  jobsQueue : Chan T;
  doneChan : Chan unit;
  signalChan : Chan unit;
  (* RunBlocking *)
  cpc : CoordPc;
  totalDone : nat;
  err : option error;
  (* populateQueue *)
  ppc : ProducerPc T;
  (* parallelizeWorkers *)
  spawn_i : nat;
  workers : list (Worker T);
  (* history, not program state *)
  sent : list T;
  executed : list T;
  closers : list Actor;
  polls : nat;
  cancels : nat;
  interrupted : bool;
  panicked : bool
}.
Arguments MkState {T M}.
Arguments workersNumber {T M} s.
Arguments jobs {T M} s.
Arguments mem {T M} s.
Arguments jobsQueue {T M} s.
Arguments doneChan {T M} s.
Arguments signalChan {T M} s.
Arguments cpc {T M} s.
Arguments totalDone {T M} s.
Arguments err {T M} s.
Arguments ppc {T M} s.
Arguments spawn_i {T M} s.
Arguments workers {T M} s.
Arguments sent {T M} s.
Arguments executed {T M} s.
Arguments closers {T M} s.
Arguments polls {T M} s.
Arguments cancels {T M} s.
Arguments interrupted {T M} s.
Arguments panicked {T M} s.

(** The scheduler's choices. *)
Inductive Action : Type :=
  | AInterrupt           (* the runtime delivers SIGINT *)
  | AProducer            (* populateQueue moves *)
  | ASpawner             (* parallelizeWorkers moves *)
  | AWorker (i : nat)    (* the i-th evaluateQueue goroutine moves *)
  | ACoordDone           (* the select of line 98 takes <-doneChan *)
  | ACoordPremature.     (* it takes <-prematureEnd, meeting line 49 *)

Section Pool.
Context {T M : Type} `{!Tasker T M}.

Local Abbreviation St := (State T M).

(** *** Field updates *)

Definition set_mem (v : M) (s : St) : St :=
  MkState (workersNumber s) (jobs s) v (jobsQueue s) (doneChan s)
    (signalChan s) (cpc s) (totalDone s) (err s) (ppc s) (spawn_i s)
    (workers s) (sent s) (executed s) (closers s) (polls s) (cancels s)
    (interrupted s) (panicked s).
Definition set_jobsQueue (v : Chan T) (s : St) : St :=
  MkState (workersNumber s) (jobs s) (mem s) v (doneChan s)
    (signalChan s) (cpc s) (totalDone s) (err s) (ppc s) (spawn_i s)
    (workers s) (sent s) (executed s) (closers s) (polls s) (cancels s)
    (interrupted s) (panicked s).
Definition set_doneChan (v : Chan unit) (s : St) : St :=
  MkState (workersNumber s) (jobs s) (mem s) (jobsQueue s) v
    (signalChan s) (cpc s) (totalDone s) (err s) (ppc s) (spawn_i s)
    (workers s) (sent s) (executed s) (closers s) (polls s) (cancels s)
    (interrupted s) (panicked s).
Definition set_signalChan (v : Chan unit) (s : St) : St :=
  MkState (workersNumber s) (jobs s) (mem s) (jobsQueue s) (doneChan s)
    v (cpc s) (totalDone s) (err s) (ppc s) (spawn_i s)
    (workers s) (sent s) (executed s) (closers s) (polls s) (cancels s)
    (interrupted s) (panicked s).
Definition set_cpc (v : CoordPc) (s : St) : St :=
  MkState (workersNumber s) (jobs s) (mem s) (jobsQueue s) (doneChan s)
    (signalChan s) v (totalDone s) (err s) (ppc s) (spawn_i s)
    (workers s) (sent s) (executed s) (closers s) (polls s) (cancels s)
    (interrupted s) (panicked s).
Definition set_totalDone (v : nat) (s : St) : St :=
  MkState (workersNumber s) (jobs s) (mem s) (jobsQueue s) (doneChan s)
    (signalChan s) (cpc s) v (err s) (ppc s) (spawn_i s)
    (workers s) (sent s) (executed s) (closers s) (polls s) (cancels s)
    (interrupted s) (panicked s).
Definition set_err (v : option error) (s : St) : St :=
  MkState (workersNumber s) (jobs s) (mem s) (jobsQueue s) (doneChan s)
    (signalChan s) (cpc s) (totalDone s) v (ppc s) (spawn_i s)
    (workers s) (sent s) (executed s) (closers s) (polls s) (cancels s)
    (interrupted s) (panicked s).
Definition set_ppc (v : ProducerPc T) (s : St) : St :=
  MkState (workersNumber s) (jobs s) (mem s) (jobsQueue s) (doneChan s)
    (signalChan s) (cpc s) (totalDone s) (err s) v (spawn_i s)
    (workers s) (sent s) (executed s) (closers s) (polls s) (cancels s)
    (interrupted s) (panicked s).
Definition set_spawn_i (v : nat) (s : St) : St :=
  MkState (workersNumber s) (jobs s) (mem s) (jobsQueue s) (doneChan s)
    (signalChan s) (cpc s) (totalDone s) (err s) (ppc s) v
    (workers s) (sent s) (executed s) (closers s) (polls s) (cancels s)
    (interrupted s) (panicked s).
Definition set_workers (v : list (Worker T)) (s : St) : St :=
  MkState (workersNumber s) (jobs s) (mem s) (jobsQueue s) (doneChan s)
    (signalChan s) (cpc s) (totalDone s) (err s) (ppc s) (spawn_i s)
    v (sent s) (executed s) (closers s) (polls s) (cancels s)
    (interrupted s) (panicked s).
Definition set_sent (v : list T) (s : St) : St :=
  MkState (workersNumber s) (jobs s) (mem s) (jobsQueue s) (doneChan s)
    (signalChan s) (cpc s) (totalDone s) (err s) (ppc s) (spawn_i s)
    (workers s) v (executed s) (closers s) (polls s) (cancels s)
    (interrupted s) (panicked s).
Definition set_executed (v : list T) (s : St) : St :=
  MkState (workersNumber s) (jobs s) (mem s) (jobsQueue s) (doneChan s)
    (signalChan s) (cpc s) (totalDone s) (err s) (ppc s) (spawn_i s)
    (workers s) (sent s) v (closers s) (polls s) (cancels s)
    (interrupted s) (panicked s).
Definition set_closers (v : list Actor) (s : St) : St :=
  MkState (workersNumber s) (jobs s) (mem s) (jobsQueue s) (doneChan s)
    (signalChan s) (cpc s) (totalDone s) (err s) (ppc s) (spawn_i s)
    (workers s) (sent s) (executed s) v (polls s) (cancels s)
    (interrupted s) (panicked s).
Definition set_polls (v : nat) (s : St) : St :=
  MkState (workersNumber s) (jobs s) (mem s) (jobsQueue s) (doneChan s)
    (signalChan s) (cpc s) (totalDone s) (err s) (ppc s) (spawn_i s)
    (workers s) (sent s) (executed s) (closers s) v (cancels s)
    (interrupted s) (panicked s).
Definition set_cancels (v : nat) (s : St) : St :=
  MkState (workersNumber s) (jobs s) (mem s) (jobsQueue s) (doneChan s)
    (signalChan s) (cpc s) (totalDone s) (err s) (ppc s) (spawn_i s)
    (workers s) (sent s) (executed s) (closers s) (polls s) v
    (interrupted s) (panicked s).
Definition set_interrupted (v : bool) (s : St) : St :=
  MkState (workersNumber s) (jobs s) (mem s) (jobsQueue s) (doneChan s)
    (signalChan s) (cpc s) (totalDone s) (err s) (ppc s) (spawn_i s)
    (workers s) (sent s) (executed s) (closers s) (polls s) (cancels s)
    v (panicked s).
Definition set_panicked (v : bool) (s : St) : St :=
  MkState (workersNumber s) (jobs s) (mem s) (jobsQueue s) (doneChan s)
    (signalChan s) (cpc s) (totalDone s) (err s) (ppc s) (spawn_i s)
    (workers s) (sent s) (executed s) (closers s) (polls s) (cancels s)
    (interrupted s) v.

(** A run-time panic ends the process. *)
Definition panic (s : St) : St := set_panicked true s.

(** *** The package's [init()], lines 77-82

    [runtime.GOMAXPROCS] sets how many threads run goroutines at once; it
    touches nothing that the pool reads, and any interleaving below is
    possible whatever its value. *)

(** *** [RunBlocking], lines 90-96

    [numCPU] is what [runtime.NumCPU()] returned when the package was
    initialised (line 35); [tasks] is the caller's slice and [m] the
    memory before the call.  The three [make]s and the two [go] statements
    have run; no goroutine has moved yet. *)
Definition start (numCPU : nat) (tasks : list T) (m : M) : St :=
  MkState numCPU tasks m
    (make_chan numCPU) (make_chan numCPU) (make_chan 1)
    CSelect 0 None
    PNotify
    0 []
    [] [] [] 0 0 false false.

(** *** [populateQueue] *)
Definition producer_close (s : St) : St :=
  match chan_close (jobsQueue s) with
  | Ok q => set_closers (closers s ++ [Producer])
              (set_ppc PReturned (set_jobsQueue q s))
  | _ => panic s
  end.

Definition producer_step (s : St) : option St :=
  match ppc s with
  | PNotify => Some (set_ppc (PRange (jobs s)) s)
  | PRange [] => Some (producer_close s)
  | PRange (t :: rest) =>
      (* the select of line 43: a pending signal wins over default *)
      match chan_recv (signalChan s) with
      | Ok (_, q) =>
          Some (set_polls (S (polls s))
                  (set_ppc PPremature (set_signalChan q s)))
      | _ => Some (set_polls (S (polls s)) (set_ppc (PSend t rest) s))
      end
  | PSend t rest =>
      match chan_send (jobsQueue s) t with
      | Ok q => Some (set_sent (sent s ++ [t])
                        (set_ppc (PRange rest) (set_jobsQueue q s)))
      | Blocked => None
      | Panic => Some (panic s)
      end
  | PPremature => None   (* unbuffered: needs the coordinator's receive *)
  | PCloseAbort => Some (producer_close s)
  | PReturned => None
  end.

(** *** [parallelizeWorkers] *)
Definition spawner_step (s : St) : option St :=
  if spawn_i s <? workersNumber s then
    Some (set_spawn_i (S (spawn_i s))
            (set_workers (workers s ++ [MkWorker WRange 0 0]) s))
  else None.

(** *** [evaluateQueue] *)
Definition set_worker (i : nat) (w : Worker T) (s : St) : St :=
  set_workers (<[i := w]> (workers s)) s.

Definition worker_step (i : nat) (s : St) : option St :=
  match workers s !! i with
  | None => None
  | Some w =>
      match wpc w with
      | WRange =>
          match chan_recv (jobsQueue s) with
          | Ok (Some j, q) =>
              Some (set_worker i (MkWorker (WExec j) (processed w) (signals w))
                      (set_jobsQueue q s))
          | Ok (None, _) =>
              Some (set_worker i (MkWorker WDoneSend (processed w) (signals w)) s)
          | _ => None
          end
      | WExec j =>
          Some (set_worker i (MkWorker WRange (S (processed w)) (signals w))
                  (set_executed (executed s ++ [j])
                     (set_mem (Execute j (mem s)) s)))
      | WDoneSend =>
          match chan_send (doneChan s) tt with
          | Ok q =>
              Some (set_worker i (MkWorker WExit (processed w) (S (signals w)))
                      (set_doneChan q s))
          | Blocked => None
          | Panic => Some (panic s)
          end
      | WExit => None
      end
  end.

(** *** [RunBlocking], lines 97-111 *)

(** Lines 105-109, after either case of the select. *)
Definition check_done (s : St) : St :=
  if totalDone s =? workersNumber s then set_cpc CReturned s else s.

Definition coord_done_step (s : St) : option St :=
  match cpc s with
  | CReturned => None
  | CSelect =>
      match chan_recv (doneChan s) with
      | Ok (_, q) =>
          Some (check_done (set_totalDone (S (totalDone s)) (set_doneChan q s)))
      | _ => None
      end
  end.

(** [prematureEnd] is unbuffered: the send of line 49 and the receive of
    line 102 happen together. *)
Definition coord_premature_step (s : St) : option St :=
  match cpc s, ppc s with
  | CSelect, PPremature =>
      Some (check_done
              (set_err (Some ErrTasksNotCompleted)
                 (set_cancels (S (cancels s)) (set_ppc PCloseAbort s))))
  | _, _ => None
  end.

(** *** The runtime's signal delivery

    [signal.Notify] never blocks: a signal that finds [signalChan] full is
    dropped, which changes nothing.  Before line 41 has run the signal is
    not relayed to the program at all. *)
Definition interrupt_step (s : St) : option St :=
  match ppc s with
  | PNotify => None
  | _ =>
      match chan_send (signalChan s) tt with
      | Ok q => Some (set_interrupted true (set_signalChan q s))
      | _ => None
      end
  end.

(** *** One transition *)
Definition step (a : Action) (s : St) : option St :=
  if panicked s then None
  else match a with
       | AInterrupt => interrupt_step s
       | AProducer => producer_step s
       | ASpawner => spawner_step s
       | AWorker i => worker_step i s
       | ACoordDone => coord_done_step s
       | ACoordPremature => coord_premature_step s
       end.

(** Replaying a schedule; [None] when it asks for a move that is not
    possible. *)
Fixpoint run (sched : list Action) (s : St) : option St :=
  match sched with
  | [] => Some s
  | a :: rest =>
      match step a s with
      | Some s' => run rest s'
      | None => None
      end
  end.

Definition reachable (numCPU : nat) (tasks : list T) (m : M) (s : St) : Prop :=
  ∃ sched, run sched (start numCPU tasks m) = Some s.

Definition returned (s : St) : Prop := cpc s = CReturned.

(** A schedule in which SIGINT is never delivered. *)
Definition quiet (a : Action) : Prop := a ≠ AInterrupt.

Definition any_action (a : Action) : Prop := True.

(** [inevitably allow P s]: [P] is reached on every run from [s] whose
    scheduler picks among the enabled actions of [allow] for as long as [P]
    has not been reached, and such a run can never get stuck before. *)
Inductive inevitably (allow : Action → Prop) (P : St → Prop) (s : St) : Prop :=
  | inev_now : P s → inevitably allow P s
  | inev_step :
      (∃ a s', allow a ∧ step a s = Some s') →
      (∀ a s', allow a → step a s = Some s' → inevitably allow P s') →
      inevitably allow P s.

(** *** Quantities the proofs count with *)

(** The worker has left its [range] loop. *)
Definition finished (w : Worker T) : bool :=
  match wpc w with
  | WDoneSend | WExit => true
  | _ => false
  end.

Definition exited (w : Worker T) : nat :=
  match wpc w with
  | WExit => 1
  | _ => 0
  end.

(** The task a worker holds between its receive and the end of [Execute]. *)
Definition inflight (w : Worker T) : list T :=
  match wpc w with
  | WExec j => [j]
  | _ => []
  end.

(** What every reachable state of a run on [n] processors, started on
    [tasks] with memory [m0], satisfies. *)
Record Inv (n : nat) (tasks : list T) (m0 : M) (s : St) : Prop := MkInv {
  inv_wn : workersNumber s = n;
  inv_jobs : jobs s = tasks;
  inv_qcap : cap (jobsQueue s) = n;
  inv_dcap : cap (doneChan s) = n;
  inv_scap : cap (signalChan s) = 1;
  inv_dopen : closed (doneChan s) = false;
  inv_sopen : closed (signalChan s) = false;
  inv_nopanic : panicked s = false;
  inv_spawn : spawn_i s = length (workers s) ∧ spawn_i s ≤ n;
  inv_qlen : length (buf (jobsQueue s)) ≤ n;
  inv_done :
    length (buf (doneChan s)) + totalDone s = sum_list_with exited (workers s);
  inv_cpc :
    match cpc s with
    | CSelect => totalDone s < n
    | CReturned => totalDone s = n
    end;
  inv_closed : closed (jobsQueue s) = true ↔ ppc s = PReturned;
  inv_closers :
    closers s = if closed (jobsQueue s) then [Producer] else [];
  inv_fin :
    Forall (λ w, finished w = true →
                 closed (jobsQueue s) = true ∧ buf (jobsQueue s) = [])
           (workers s);
  inv_wsig : Forall (λ w, signals w = exited w) (workers s);
  inv_prod :
    match ppc s with
    | PNotify =>
        sent s = [] ∧ polls s = 0 ∧ cancels s = 0 ∧ err s = None
    | PRange rest =>
        sent s ++ rest = tasks ∧ polls s = length (sent s) ∧
        cancels s = 0 ∧ err s = None
    | PSend t rest =>
        sent s ++ t :: rest = tasks ∧ polls s = S (length (sent s)) ∧
        cancels s = 0 ∧ err s = None
    | PPremature =>
        (∃ t rest, sent s ++ t :: rest = tasks) ∧
        polls s = S (length (sent s)) ∧ cancels s = 0 ∧ err s = None
    | PCloseAbort =>
        (∃ t rest, sent s ++ t :: rest = tasks) ∧
        polls s = S (length (sent s)) ∧ cancels s = 1 ∧
        err s = Some ErrTasksNotCompleted
    | PReturned =>
        (sent s = tasks ∧ polls s = length (sent s) ∧
         cancels s = 0 ∧ err s = None) ∨
        ((∃ t rest, sent s ++ t :: rest = tasks) ∧
         polls s = S (length (sent s)) ∧ cancels s = 1 ∧
         err s = Some ErrTasksNotCompleted)
    end;
  inv_flow :
    sent s ≡ₚ executed s ++ (workers s ≫= inflight) ++ buf (jobsQueue s);
  inv_mem : mem s = foldl (λ m j, Execute j m) m0 (executed s);
  inv_proc : sum_list_with processed (workers s) = length (executed s);
  inv_int :
    interrupted s = false →
    buf (signalChan s) = [] ∧ cancels s = 0 ∧ ppc s ≠ PPremature
}.

(** What holds besides when [RunBlocking] has returned. *)
Record AtReturn (n : nat) (s : St) : Prop := MkAtReturn {
  ret_total : totalDone s = n;
  ret_spawned : length (workers s) = n;
  ret_exited : Forall (λ w, wpc w = WExit ∧ signals w = 1) (workers s);
  ret_drained : buf (doneChan s) = [];
  ret_producer : ppc s = PReturned;
  ret_closed : closed (jobsQueue s) = true;
  ret_empty : buf (jobsQueue s) = [];
  ret_closers : closers s = [Producer];
  ret_flow : executed s ≡ₚ sent s
}.

(** *** A bound on the number of transitions still possible *)

Definition producer_weight (p : ProducerPc T) (njobs : nat) : nat :=
  match p with
  | PNotify => 4 * njobs + 2
  | PRange rest => 4 * length rest + 1
  | PSend _ rest => 4 * length rest + 4
  | PPremature => 2
  | PCloseAbort => 1
  | PReturned => 0
  end.

Definition worker_weight (w : Worker T) : nat :=
  match wpc w with
  | WRange => 3
  | WExec _ => 4
  | WDoneSend => 2
  | WExit => 0
  end.

Definition measure (s : St) : nat :=
  (match buf (signalChan s) with [] => 1 | _ => 0 end)
  + producer_weight (ppc s) (length (jobs s))
  + 2 * length (buf (jobsQueue s))
  + 4 * (workersNumber s - spawn_i s)
  + sum_list_with worker_weight (workers s)
  + length (buf (doneChan s)).


(** The poll that the producer has made and not yet followed by a send:
    the one before the send it is blocked on, or the one that took the
    signal. *)
Definition open_polls (s : St) : nat :=
  match ppc s with
  | PSend _ _ | PPremature | PCloseAbort => 1
  | PReturned => cancels s
  | _ => 0
  end.

(** The state a schedule leads to from the start of a run ([None] when the
    schedule is not one the program can follow). *)
Definition run_from_start (numCPU : nat) (tasks : list T) (m : M)
    (sched : list Action) : option St :=
  run sched (start numCPU tasks m).

End Pool.

Arguments finished {T} !w /.
Arguments exited {T} !w /.
Arguments inflight {T} !w /.
Arguments worker_weight {T} !w /.

(** ** The tasks of the package's tests *)

(** [type dummy struct { done bool }] and [type dummyNop struct { done bool }]. *)
Record dummy : Type := MkDummy { dummy_done : bool }.
Record dummyNop : Type := MkDummyNop { dummyNop_done : bool }.

(** The caller's memory: the [dummy] cells that [&dummy{}] allocated, by
    address. *)
Abbreviation Heap := (list dummy).

(** [func (d *dummy) Execute()]: the loop of lines 40-42 only calls the pure
    [isPrime] and drops its results; line 43 writes through the pointer. *)
Definition dummy_Execute (d : nat) (h : Heap) : Heap :=
  <[d := MkDummy true]> h.

(** [func (d dummyNop) Execute()]: the receiver [d] is a copy of the value in
    the interface; line 50 writes to that copy, which dies at the return. *)
Definition dummyNop_Execute (d : dummyNop) (h : Heap) : Heap :=
  let d := MkDummyNop true in
  h.

(** The interface values of the tests: [Tasker(&dummy{})] holds a pointer,
    [Tasker(dummyNop{})] holds the struct itself. *)
Inductive TestTask : Type :=
  | PtrDummy (p : nat)
  | ValDummyNop (v : dummyNop).

Global Instance TestTask_Tasker : Tasker TestTask Heap :=
  λ t h,
    match t with
    | PtrDummy p => dummy_Execute p h
    | ValDummyNop v => dummyNop_Execute v h
    end.

(** The memory after the [Execute] calls of [l], made in that order. *)
Abbreviation run_all := (foldl (λ (m : Heap) (j : TestTask), Execute j m)).

(** The loop of [TestRunBlocking], lines 71-75: every task reports [done]. *)
Definition all_done (h : Heap) (tasks : list TestTask) : bool :=
  forallb (λ e, match e with
                | PtrDummy p => match h !! p with
                                | Some d => dummy_done d
                                | None => false
                                end
                | ValDummyNop _ => false
                end) tasks.

(** The loop of [TestRunBlocking_nopointer], lines 117-121: no task reports
    [done]. *)
Definition none_done (tasks : list TestTask) : bool :=
  forallb (λ e, match e with
                | ValDummyNop v => negb (dummyNop_done v)
                | PtrDummy _ => false
                end) tasks.

(** ** After the last poll *)

Section LastPoll.
Context {T M : Type} `{!Tasker T M}.

(** [populateQueue] has made the poll of its last round and found no
    signal: it is at the last send, at the closing of line 57, or it has
    returned by that way. *)
Definition polling_over (s : State T M) : Prop :=
  cancels s = 0 ∧
  match ppc s with
  | PSend _ [] | PRange [] | PReturned => True
  | _ => False
  end.

End LastPoll.

(** ** The rest of the tests' code *)

(** [uint64(math.Sqrt(float64(n)))], line 29 of the tests: the one step of
    [isPrime] that goes through floating point.  It is a function of [n];
    which function is left to the platform's [math.Sqrt]. *)
Class FloatSqrt := sqrt64 : Z → Z.

Section Sieve.
Context `{FloatSqrt}.
Local Open Scope Z_scope.

(** The conversion [uint64(i)] of an [int]. *)
Definition uint64 (i : Z) : Z := i mod 2 ^ 64.

(** The loop of lines 30-35 over the values that [i] takes. *)
Fixpoint isPrime_loop (n : Z) (candidates : list Z) : bool :=
  match candidates with
  | [] => true
  | i :: rest => if n mod i =? 0 then false else isPrime_loop n rest
  end.

(** [func isPrime(n uint64) bool]; [i] runs from 2 up to [num]. *)
Definition isPrime (n : Z) : bool :=
  if n <=? 2 then true
  else
    let num := sqrt64 n in
    isPrime_loop n (seqZ 2 (num - 1)).

(** [type job struct { start, stop int; results map[int]bool }]; a [nil]
    map is [None]. *)
Record job : Type := MkJob {
  job_start : Z;
  job_stop : Z;
  job_results : option (gmap Z bool)
}.

(** The map that the loop [for i := lo; i <= hi; i++] of [job.Execute]
    (line 132) and of [TestGain] (line 174) fills, starting from an empty
    one.  The loop ends when [hi] is less than the largest [int]. *)
Definition sieve (lo hi : Z) : gmap Z bool :=
  foldl (λ (results : gmap Z bool) (i : Z),
           <[i := isPrime (uint64 i)]> results)
        ∅ (seqZ lo (hi - lo + 1)).

(** [func (j *job) Execute()], on the cell that [j] points to. *)
Definition job_Execute (j : nat) (h : list job) : list job :=
  alter (λ c, MkJob (job_start c) (job_stop c)
                (Some (sieve (job_start c) (job_stop c)))) j h.

(** [Tasker(&job{...})]. *)
Inductive JobTask : Type := PtrJob (p : nat).

Global Instance JobTask_Tasker : Tasker JobTask (list job) :=
  λ t h, match t with PtrJob p => job_Execute p h end.

(** One round of the loop of [TestGain], lines 148-159, on [prev] and on
    the cells allocated so far; [None] is the run-time panic of [i % d]
    when [d] is zero. *)
Definition TestGain_round (d : Z) (acc : option (Z * list job)) (i : Z) :
    option (Z * list job) :=
  match acc with
  | None => None
  | Some (prev, cells) =>
      if d =? 0 then None
      else if Z.rem i d =? 0 then Some (i + 1, cells ++ [MkJob prev i None])
      else Some (prev, cells)
  end.

(** [TestGain], lines 140-162: the [job] cells it allocates, in order. *)
Definition TestGain_jobs (cores limit : Z) : option (list job) :=
  let d := Z.quot limit cores in
  match foldl (TestGain_round d) (Some (1, [])) (seqZ 1 (limit - 1)) with
  | None => None
  | Some (prev, cells) => Some (cells ++ [MkJob prev limit None])
  end.

(** The slice [tasks] of [TestGain]: the k-th task points to the k-th
    cell. *)
Definition TestGain_tasks (cells : list job) : list JobTask :=
  PtrJob <$> seq 0 (length cells).

(** [var limit int = 1e6], line 144. *)
Definition TestGain_limit : Z := 1000000.

(** The intervals of [cells] follow one another from [lo] to [hi] without
    gap or overlap, and none is empty. *)
Fixpoint chained (lo : Z) (cells : list job) (hi : Z) : Prop :=
  match cells with
  | [] => lo = hi + 1
  | c :: rest =>
      job_start c = lo ∧ lo ≤ job_stop c ∧ chained (job_stop c + 1) rest hi
  end.

End Sieve.

(** [initTests], lines 53-63: a hundred fresh [dummy] cells and the slice
    [testCases] of pointers to them. *)
Definition initTests_heap : Heap := replicate 100 (MkDummy false).
Definition initTests_testCases : list TestTask := PtrDummy <$> seq 0 100.

(** [TestRunBlocking], lines 67-75, from the state in which [RunBlocking]
    has returned: [true] when no [t.Fatal] is reached. *)
Definition TestRunBlocking_passes (s : State TestTask Heap) : bool :=
  match err s with
  | Some _ => false
  | None => all_done (mem s) (jobs s)
  end.

(** [TestRunBlocking_nopointer], lines 109-112: ten [dummyNop] values. *)
Definition nopointer_tasks : list TestTask :=
  replicate 10 (ValDummyNop (MkDummyNop false)).

(** [TestRunBlocking_nopointer], lines 113-121. *)
Definition TestRunBlocking_nopointer_passes (s : State TestTask Heap) : bool :=
  match err s with
  | Some _ => false
  | None => none_done (jobs s)
  end.

Global Instance JobTask_eq_dec : EqDecision JobTask.
Proof. solve_decision. Defined.

(** A [math.Sqrt] whose result truncates to the integer square root. *)
Definition exact_sqrt : FloatSqrt := Z.sqrt.

(** ** A run of [TestGain]'s jobs, for two cores and numbers up to four, on
    one processor *)

Definition gain_cells : list job := [MkJob 1 2 None; MkJob 3 4 None].

Definition gain_schedule : list Action :=
  [AProducer; ASpawner; AProducer; AProducer; AWorker 0;
   AProducer; AProducer; AProducer;
   AWorker 0; AWorker 0; AWorker 0; AWorker 0; AWorker 0;
   ACoordDone].

Definition gain_state : State JobTask (list job) :=
  default (start 1 (TestGain_tasks gain_cells) gain_cells)
    (@run_from_start JobTask (list job) (@JobTask_Tasker exact_sqrt)
       1 (TestGain_tasks gain_cells) gain_cells gain_schedule).

(** ** Runs of the tests' tasks on two processors *)

Definition demo_heap : Heap := [MkDummy false; MkDummy false].

Definition demo_tasks : list TestTask :=
  [PtrDummy 0; ValDummyNop (MkDummyNop false); PtrDummy 1].

(** The state a schedule leads to on [demo_tasks]. *)
Definition demo_state (sched : list Action) : State TestTask Heap :=
  default (start 2 demo_tasks demo_heap)
    (run_from_start 2 demo_tasks demo_heap sched).

(** A run to the end in which SIGINT never comes and the second worker
    executes its task before the first one does. *)
Definition quiet_schedule : list Action :=
  [AProducer; ASpawner; ASpawner;
   AProducer; AProducer; AProducer; AProducer;
   AWorker 0; AWorker 1;
   AProducer; AProducer; AProducer;
   AWorker 1; AWorker 0; AWorker 0; AWorker 0;
   AWorker 0; AWorker 1; AWorker 0; AWorker 1;
   ACoordDone; ACoordDone].

(** SIGINT comes after the first task was sent; the schedule stops when
    [populateQueue] has seen it. *)
Definition cancel_schedule : list Action :=
  [AProducer; ASpawner; ASpawner;
   AProducer; AProducer; AInterrupt; AProducer].

(** The rest of that run; the second worker never gets a task. *)
Definition drain_schedule : list Action :=
  [ACoordPremature; AProducer;
   AWorker 0; AWorker 0; AWorker 0; AWorker 1;
   AWorker 0; AWorker 1;
   ACoordDone; ACoordDone].

(** * Proofs *)

(** ** Lists of workers updated in place *)

Section ListFacts.
Context {A : Type}.

Lemma sum_list_with_insert (f : A → nat) (l : list A) (i : nat) (x y : A) :
  l !! i = Some x →
  sum_list_with f (<[i := y]> l) + f x = sum_list_with f l + f y.
Proof.
  revert i. induction l as [|a l IH]; intros [|i] Hi; simplify_eq/=.
  - lia.
  - specialize (IH i Hi). lia.
Qed.

Lemma bind_insert_perm {B : Type} (f : A → list B) (l : list A) (i : nat)
    (x y : A) :
  l !! i = Some x →
  (<[i := y]> l ≫= f) ++ f x ≡ₚ (l ≫= f) ++ f y.
Proof.
  revert i. induction l as [|a l IH]; intros [|i] Hi; simplify_eq/=.
  - rewrite (comm (++) (f y ++ _) (f x)), (comm (++) (f y) _).
    by rewrite !(assoc_L (++)).
  - rewrite <- !(assoc_L (++)). f_equiv. by apply IH.
Qed.

End ListFacts.

(** ** What a successful channel operation tells *)

Section ChanFacts.
Context {A : Type}.

Lemma chan_send_Ok (c q : Chan A) (x : A) :
  chan_send c x = Ok q →
  closed c = false ∧ length (buf c) < cap c ∧
  q = MkChan (buf c ++ [x]) (cap c) false.
Proof.
  unfold chan_send. destruct (closed c) eqn:Hc; [done|].
  destruct (Nat.ltb_spec (length (buf c)) (cap c)); [|done].
  by intros [= <-].
Qed.

Lemma chan_send_not_Panic (c : Chan A) (x : A) :
  closed c = false → chan_send c x ≠ Panic.
Proof. unfold chan_send. intros ->. by case_match. Qed.

Lemma chan_send_room (c : Chan A) (x : A) :
  closed c = false → length (buf c) < cap c → ∃ q, chan_send c x = Ok q.
Proof.
  unfold chan_send. intros -> Hlt.
  destruct (Nat.ltb_spec (length (buf c)) (cap c)); [eauto|lia].
Qed.

Lemma chan_recv_Some (c q : Chan A) (x : A) :
  chan_recv c = Ok (Some x, q) →
  buf c = x :: buf q ∧ cap q = cap c ∧ closed q = closed c.
Proof.
  unfold chan_recv. destruct (buf c) as [|y r]; [by case_match|].
  by intros [= <- <-].
Qed.

Lemma chan_recv_None (c q : Chan A) :
  chan_recv c = Ok (None, q) → buf c = [] ∧ closed c = true ∧ q = c.
Proof.
  unfold chan_recv. destruct (buf c) as [|y r]; [|done].
  destruct (closed c); [|done]. by intros [= <-].
Qed.

Lemma chan_recv_open (c q : Chan A) (o : option A) :
  closed c = false → chan_recv c = Ok (o, q) →
  ∃ x, o = Some x ∧ buf c = x :: buf q ∧ cap q = cap c ∧ closed q = false.
Proof.
  intros Hc Hr. destruct o as [x|].
  - apply chan_recv_Some in Hr as (? & ? & ?). exists x. by rewrite <- Hc.
  - apply chan_recv_None in Hr as (? & ? & ?). congruence.
Qed.

Lemma chan_close_open (c : Chan A) :
  closed c = false → chan_close c = Ok (MkChan (buf c) (cap c) true).
Proof. unfold chan_close. by intros ->. Qed.
End ChanFacts.

(** ** The invariant *)

Section PoolProofs.
Context {T M : Type} `{!Tasker T M}.
Implicit Types (s : State T M) (a : Action) (n : nat) (tasks : list T).

Ltac inv_split H :=
  destruct H as [Hwn Hjobs Hqcap Hdcap Hscap Hdopen Hsopen Hnp Hspawn Hqlen
                   Hdone Hcpc Hclosed Hclosers Hfin Hwsig Hprod Hflow Hmem
                   Hproc Hint].

Lemma Inv_start n tasks (m0 : M) : 0 < n → Inv n tasks m0 (start n tasks m0).
Proof.
  intros Hn. constructor; simpl; try done; lia.
Qed.

Ltac queue_open s Hclosed :=
  let Hopen := fresh "Hopen" in
  assert (Hopen : closed (jobsQueue s) = false)
    by (destruct (closed (jobsQueue s)); [|done];
        destruct Hclosed as [Hclosed _]; by specialize (Hclosed eq_refl)).

Lemma producer_close_Inv n tasks (m0 : M) s :
  Inv n tasks m0 s →
  closed (jobsQueue s) = false →
  Forall (λ w, finished w = false) (workers s) →
  match ppc s with
  | PRange [] | PCloseAbort => True
  | _ => False
  end →
  Inv n tasks m0 (producer_close s).
Proof.
  intros HI Hopen Hnofin Hp. inv_split HI.
  unfold producer_close. rewrite (chan_close_open _ Hopen).
  constructor; simpl; try done.
  - by rewrite Hclosers, Hopen.
  - eapply Forall_impl; [exact Hnofin|]. simpl. intros w -> [=].
  - destruct (ppc s) as [|[|]| | | |]; try done.
    + left. destruct Hprod as (Hs & ? & ? & ?). by rewrite app_nil_r in Hs.
    + by right.
  - intros Hi. destruct (Hint Hi) as (? & ? & ?). done.
Qed.

Lemma open_no_finished s :
  Forall (λ w, finished w = true →
               closed (jobsQueue s) = true ∧ buf (jobsQueue s) = [])
         (workers s) →
  closed (jobsQueue s) = false →
  Forall (λ w, finished w = false) (workers s).
Proof.
  intros Hfin Hopen. eapply Forall_impl; [exact Hfin|]. simpl.
  intros w Hw. destruct (finished w); [|done].
  destruct (Hw eq_refl). congruence.
Qed.

Lemma producer_step_Inv n tasks (m0 : M) s s' :
  Inv n tasks m0 s → producer_step s = Some s' → Inv n tasks m0 s'.
Proof.
  intros HI Hs. pose proof HI as HI'. inv_split HI. unfold producer_step in Hs.
  destruct (ppc s) as [|[|t rest]|t rest| | |] eqn:Hp; try done.
  - (* line 41 *)
    injection Hs as <-. queue_open s Hclosed.
    destruct Hprod as (Hsent & ? & ? & ?).
    constructor; simpl; try done; try (by rewrite Hopen).
    + by rewrite Hsent.
    + intros Hi. by destruct (Hint Hi) as (? & ? & ?).
  - (* line 57 *)
    injection Hs as <-. queue_open s Hclosed.
    apply producer_close_Inv; [done|done|by apply open_no_finished|].
    by rewrite Hp.
  - (* line 43 *)
    queue_open s Hclosed. destruct Hprod as (Hsent & ? & ? & ?).
    destruct (chan_recv (signalChan s)) as [[o q]| |] eqn:Hr.
    + injection Hs as <-.
      apply (chan_recv_open _ _ _ Hsopen) in Hr as (x & -> & Hb & Hc & Ho).
      constructor; simpl; try done; try (by rewrite Hopen).
      * congruence.
      * split; [eauto|]. split; [congruence|done].
      * intros Hi. destruct (Hint Hi) as (? & ? & ?). congruence.
    + injection Hs as <-.
      constructor; simpl; try done; try (by rewrite Hopen).
      * split; [done|]. split; [congruence|done].
      * intros Hi. by destruct (Hint Hi) as (? & ? & ?).
    + injection Hs as <-.
      constructor; simpl; try done; try (by rewrite Hopen).
      * split; [done|]. split; [congruence|done].
      * intros Hi. by destruct (Hint Hi) as (? & ? & ?).
  - (* line 53 *)
    queue_open s Hclosed. destruct Hprod as (Hsent & ? & ? & ?).
    destruct (chan_send (jobsQueue s) t) as [q| |] eqn:Hq; [|done|].
    + injection Hs as <-.
      apply chan_send_Ok in Hq as (_ & Hlt & ->).
      constructor; simpl; try done; try (by rewrite Hopen).
      * rewrite length_app. simpl. lia.
      * by rewrite Hclosers, Hopen.
      * eapply Forall_impl; [by apply open_no_finished|].
        simpl. intros w -> [=].
      * rewrite <- (assoc_L (++)). split; [done|].
        rewrite length_app. simpl. split; [lia|done].
      * rewrite Hflow. by rewrite !(assoc_L (++)).
      * intros Hi. by destruct (Hint Hi) as (? & ? & ?).
    + by apply chan_send_not_Panic in Hq.
  - (* line 50 *)
    injection Hs as <-. queue_open s Hclosed.
    apply producer_close_Inv; [done|done|by apply open_no_finished|].
    by rewrite Hp.
Qed.

Lemma interrupt_step_Inv n tasks (m0 : M) s s' :
  Inv n tasks m0 s → interrupt_step s = Some s' → Inv n tasks m0 s'.
Proof.
  intros HI Hs. inv_split HI. unfold interrupt_step in Hs.
  destruct (chan_send (signalChan s) tt) as [q| |] eqn:Hq;
    [|by destruct (ppc s)..].
  apply chan_send_Ok in Hq as (_ & Hlt & ->).
  assert (s' = set_interrupted true
                 (set_signalChan
                    (MkChan (buf (signalChan s) ++ [()]) (cap (signalChan s))
                       false) s)) as -> by (by destruct (ppc s); simplify_eq).
  constructor; simpl; done.
Qed.

Lemma spawner_step_Inv n tasks (m0 : M) s s' :
  Inv n tasks m0 s → spawner_step s = Some s' → Inv n tasks m0 s'.
Proof.
  intros HI Hs. inv_split HI. unfold spawner_step in Hs.
  destruct (Nat.ltb_spec (spawn_i s) (workersNumber s)); [|done].
  injection Hs as <-.
  constructor; simpl; try done.
  - rewrite length_app. simpl. lia.
  - rewrite sum_list_with_app. simpl. lia.
  - apply Forall_app. split; [done|]. by apply Forall_singleton.
  - apply Forall_app. split; [done|]. by apply Forall_singleton.
  - rewrite bind_app. simpl. by rewrite app_nil_r.
  - rewrite sum_list_with_app. simpl. lia.
Qed.

Ltac case_check_done He :=
  unfold check_done;
  match goal with
  | |- context [?a =? ?b] => destruct (Nat.eqb_spec a b) as [He|He]
  end; simpl in He.

Lemma coord_done_step_Inv n tasks (m0 : M) s s' :
  Inv n tasks m0 s → coord_done_step s = Some s' → Inv n tasks m0 s'.
Proof.
  intros HI Hs. inv_split HI. unfold coord_done_step in Hs.
  destruct (cpc s) eqn:Hc; [|done].
  destruct (chan_recv (doneChan s)) as [[o q]| |] eqn:Hr; [|done..].
  injection Hs as <-.
  apply (chan_recv_open _ _ _ Hdopen) in Hr as (x & -> & Hb & Hcap & Ho).
  case_check_done He.
  all: constructor; simpl; try done; try congruence.
  all: rewrite ?Hc; rewrite ?Hb in Hdone; simpl in Hdone; lia.
Qed.

Lemma coord_premature_step_Inv n tasks (m0 : M) s s' :
  Inv n tasks m0 s → coord_premature_step s = Some s' → Inv n tasks m0 s'.
Proof.
  intros HI Hs. inv_split HI. unfold coord_premature_step in Hs.
  destruct (cpc s) eqn:Hc; [|done].
  destruct (ppc s) eqn:Hp; try done.
  injection Hs as <-. queue_open s Hclosed.
  case_check_done He; [lia|].
  constructor; simpl; try done; try (by rewrite Hopen).
  - by rewrite Hc.
  - destruct Hprod as (? & ? & -> & ?). done.
  - intros Hi. destruct (Hint Hi) as (? & ? & ?). congruence.
Qed.

Ltac worker_facts Hw w' :=
  let Hex := fresh "Hex" in
  let Hpr := fresh "Hpr" in
  let Hin := fresh "Hin" in
  pose proof (sum_list_with_insert exited _ _ _ w' Hw) as Hex;
  pose proof (sum_list_with_insert processed _ _ _ w' Hw) as Hpr;
  pose proof (bind_insert_perm inflight _ _ _ w' Hw) as Hin;
  simpl in Hex, Hpr, Hin.

Lemma worker_step_Inv n tasks (m0 : M) i s s' :
  Inv n tasks m0 s → worker_step i s = Some s' → Inv n tasks m0 s'.
Proof.
  intros HI Hs. inv_split HI. unfold worker_step in Hs.
  destruct (workers s !! i) as [w|] eqn:Hw; [|done].
  pose proof (Forall_lookup_1 _ _ _ _ Hfin Hw) as Hfw.
  pose proof (Forall_lookup_1 _ _ _ _ Hwsig Hw) as Hsw.
  destruct w as [pc np ns]. simpl in *.
  destruct pc as [|j| |]; simpl in *; [| | |done].
  - (* line 71 *)
    destruct (chan_recv (jobsQueue s)) as [[[j|] q]| |] eqn:Hr; [| |done..].
    + injection Hs as <-.
      apply chan_recv_Some in Hr as (Hb & Hcap & Hcl).
      worker_facts Hw (MkWorker (WExec j) np ns).
      assert (Hnofin : Forall (λ w, finished w = false) (workers s)).
      { eapply Forall_impl; [exact Hfin|]. simpl.
        intros w Hfw'. destruct (finished w); [|done].
        destruct (Hfw' eq_refl). congruence. }
      constructor; simpl; try done; try congruence.
      * by rewrite length_insert.
      * rewrite Hb in Hqlen. simpl in Hqlen. lia.
      * lia.
      * by rewrite Hcl.
      * apply Forall_insert; [|done].
        eapply Forall_impl; [exact Hnofin|]. simpl. intros w -> [=].
      * apply Forall_insert; [done|]. simpl. by rewrite Hsw.
      * rewrite app_nil_r in Hin. rewrite Hin, Hflow, Hb.
        by rewrite <- (assoc_L (++) _ [j]).
      * lia.
    + injection Hs as <-.
      apply chan_recv_None in Hr as (Hb & Hcl & ->).
      worker_facts Hw (@MkWorker T WDoneSend np ns).
      constructor; simpl; try done; try congruence.
      * by rewrite length_insert.
      * lia.
      * by apply Forall_insert.
      * apply Forall_insert; [done|]. simpl. by rewrite Hsw.
      * rewrite !app_nil_r in Hin. by rewrite Hin.
      * lia.
  - (* line 72 *)
    injection Hs as <-.
    worker_facts Hw (@MkWorker T WRange (S np) ns).
    constructor; simpl; try done; try congruence.
    + by rewrite length_insert.
    + lia.
    + by apply Forall_insert.
    + apply Forall_insert; [done|]. simpl. by rewrite Hsw.
    + rewrite app_nil_r in Hin. rewrite Hflow, <- Hin.
      rewrite <- !(assoc_L (++)). f_equiv. simpl.
      symmetry. apply Permutation_middle.
    + rewrite foldl_app. simpl. by rewrite Hmem.
    + rewrite length_app. simpl. lia.
  - (* line 74 *)
    destruct (chan_send (doneChan s) tt) as [q| |] eqn:Hq; [|done|].
    + injection Hs as <-.
      apply chan_send_Ok in Hq as (_ & Hlt & ->).
      worker_facts Hw (@MkWorker T WExit np (S ns)).
      constructor; simpl; try done; try congruence.
      * by rewrite length_insert.
      * rewrite length_app. simpl. lia.
      * by apply Forall_insert.
      * apply Forall_insert; [done|]. simpl. by rewrite Hsw.
      * rewrite !app_nil_r in Hin. by rewrite Hin.
      * lia.
    + by apply chan_send_not_Panic in Hq.
Qed.

Theorem step_Inv n tasks (m0 : M) a s s' :
  Inv n tasks m0 s → step a s = Some s' → Inv n tasks m0 s'.
Proof.
  intros HI. unfold step. rewrite (inv_nopanic _ _ _ _ HI).
  destruct a; eauto using interrupt_step_Inv, producer_step_Inv,
    spawner_step_Inv, worker_step_Inv, coord_done_step_Inv,
    coord_premature_step_Inv.
Qed.

Lemma run_Inv n tasks (m0 : M) sched s s' :
  Inv n tasks m0 s → run sched s = Some s' → Inv n tasks m0 s'.
Proof.
  revert s. induction sched as [|a sched IH]; simpl; intros s HI Hr.
  - by injection Hr as <-.
  - destruct (step a s) as [s1|] eqn:Hs; [|done].
    eauto using step_Inv.
Qed.

Lemma reachable_Inv n tasks (m0 : M) s :
  0 < n → reachable n tasks m0 s → Inv n tasks m0 s.
Proof. intros Hn [sched Hr]. eauto using run_Inv, Inv_start. Qed.

(** ** Every transition uses up some of the measure *)

Lemma step_measure n tasks (m0 : M) a s s' :
  Inv n tasks m0 s → step a s = Some s' → measure s' < measure s.
Proof.
  intros HI. pose proof HI as HI'. inv_split HI.
  unfold step. rewrite Hnp.
  destruct a as [| | |i| |]; intros Hs.
  - (* SIGINT *)
    unfold interrupt_step in Hs.
    destruct (chan_send (signalChan s) tt) as [q| |] eqn:Hq;
      [|by destruct (ppc s)..].
    apply chan_send_Ok in Hq as (_ & Hlt & ->).
    rewrite Hscap in Hlt.
    assert (s' = set_interrupted true
                   (set_signalChan
                      (MkChan (buf (signalChan s) ++ [()])
                         (cap (signalChan s)) false) s)) as ->
      by (by destruct (ppc s); simplify_eq).
    destruct (buf (signalChan s)) as [|? ?] eqn:Hb; [|simpl in Hlt; lia].
    unfold measure. simpl. rewrite Hb. simpl. lia.
  - (* populateQueue *)
    unfold producer_step in Hs.
    destruct (ppc s) as [|[|t rest]|t rest| | |] eqn:Hp; try done.
    + injection Hs as <-. unfold measure. simpl. rewrite Hp. simpl. lia.
    + injection Hs as <-. queue_open s Hclosed.
      unfold producer_close. rewrite (chan_close_open _ Hopen).
      unfold measure. simpl. rewrite Hp. simpl. lia.
    + destruct (chan_recv (signalChan s)) as [[o q]| |] eqn:Hr.
      * injection Hs as <-.
        apply (chan_recv_open _ _ _ Hsopen) in Hr as (x & -> & Hb & Hc & Ho).
        unfold measure. simpl. rewrite Hp, Hb. simpl.
        destruct (buf q); lia.
      * injection Hs as <-. unfold measure. simpl. rewrite Hp. simpl. lia.
      * injection Hs as <-. unfold measure. simpl. rewrite Hp. simpl. lia.
    + queue_open s Hclosed.
      destruct (chan_send (jobsQueue s) t) as [q| |] eqn:Hq; [|done|].
      * injection Hs as <-.
        apply chan_send_Ok in Hq as (_ & Hlt & ->).
        unfold measure. simpl. rewrite Hp, length_app. simpl. lia.
      * by apply chan_send_not_Panic in Hq.
    + injection Hs as <-. queue_open s Hclosed.
      unfold producer_close. rewrite (chan_close_open _ Hopen).
      unfold measure. simpl. rewrite Hp. simpl. lia.
  - (* parallelizeWorkers *)
    unfold spawner_step in Hs.
    destruct (Nat.ltb_spec (spawn_i s) (workersNumber s)); [|done].
    injection Hs as <-. unfold measure. simpl.
    rewrite sum_list_with_app. simpl. lia.
  - (* evaluateQueue *)
    unfold worker_step in Hs.
    destruct (workers s !! i) as [w|] eqn:Hw; [|done].
    destruct w as [pc np ns]. simpl in *.
    destruct pc as [|j| |]; simpl in *; [| | |done].
    + destruct (chan_recv (jobsQueue s)) as [[[j|] q]| |] eqn:Hr; [| |done..].
      * injection Hs as <-.
        apply chan_recv_Some in Hr as (Hb & Hcap & Hcl).
        pose proof (sum_list_with_insert worker_weight _ _ _
                      (@MkWorker T (WExec j) np ns) Hw) as Hww.
        unfold measure. simpl in *. rewrite Hb. simpl. lia.
      * injection Hs as <-.
        pose proof (sum_list_with_insert worker_weight _ _ _
                      (@MkWorker T WDoneSend np ns) Hw) as Hww.
        unfold measure. simpl in *. lia.
    + injection Hs as <-.
      pose proof (sum_list_with_insert worker_weight _ _ _
                    (@MkWorker T WRange (S np) ns) Hw) as Hww.
      unfold measure. simpl in *. lia.
    + destruct (chan_send (doneChan s) tt) as [q| |] eqn:Hq; [|done|].
      * injection Hs as <-.
        apply chan_send_Ok in Hq as (_ & Hlt & ->).
        pose proof (sum_list_with_insert worker_weight _ _ _
                      (@MkWorker T WExit np (S ns)) Hw) as Hww.
        unfold measure. simpl in *. rewrite length_app. simpl. lia.
      * by apply chan_send_not_Panic in Hq.
  - (* line 100 *)
    unfold coord_done_step in Hs.
    destruct (cpc s) eqn:Hc; [|done].
    destruct (chan_recv (doneChan s)) as [[o q]| |] eqn:Hr; [|done..].
    injection Hs as <-.
    apply (chan_recv_open _ _ _ Hdopen) in Hr as (x & -> & Hb & Hcap & Ho).
    case_check_done He; unfold measure; simpl; rewrite Hb; simpl; lia.
  - (* line 102 *)
    unfold coord_premature_step in Hs.
    destruct (cpc s) eqn:Hc; [|done].
    destruct (ppc s) eqn:Hp; try done.
    injection Hs as <-.
    case_check_done He; unfold measure; simpl; rewrite Hp; simpl; lia.
Qed.
(** ** No deadlock *)

Lemma exited_le (ws : list (Worker T)) :
  sum_list_with exited ws ≤ length ws.
Proof.
  induction ws as [|w ws IH]; simpl; [lia|].
  destruct w as [[] ? ?]; simpl; lia.
Qed.

Lemma exited_lt (ws : list (Worker T)) i w :
  ws !! i = Some w → exited w = 0 → sum_list_with exited ws < length ws.
Proof.
  revert i. induction ws as [|w' ws IH]; intros [|i] Hi Hw; simplify_eq/=.
  - pose proof (exited_le ws). lia.
  - specialize (IH i Hi Hw). destruct w' as [[] ? ?]; simpl; lia.
Qed.

Lemma some_running (ws : list (Worker T)) :
  (∃ i w, ws !! i = Some w ∧ wpc w ≠ WExit) ∨
  sum_list_with exited ws = length ws.
Proof.
  induction ws as [|w ws [(i & w' & Hi & Hw)|IH]].
  - by right.
  - left. by exists (S i), w'.
  - destruct (wpc w) eqn:Hpc.
    1-3: left; exists 0, w; split; [done|congruence].
    right. simpl. unfold exited at 1. rewrite Hpc. lia.
Qed.

(** A worker that has not exited can move as soon as the queue holds a
    task or is closed. *)
Lemma worker_can_move n tasks (m0 : M) s i w :
  Inv n tasks m0 s →
  workers s !! i = Some w → wpc w ≠ WExit →
  buf (jobsQueue s) ≠ [] ∨ closed (jobsQueue s) = true →
  ∃ s', worker_step i s = Some s'.
Proof.
  intros HI Hw Hpc Hq. pose proof HI as HI'. inv_split HI.
  unfold worker_step. rewrite Hw.
  destruct (wpc w) as [|j| |] eqn:Hwpc; [| | |done].
  - unfold chan_recv. destruct (buf (jobsQueue s)) as [|j r]; [|eauto].
    destruct Hq as [?| ->]; [done|eauto].
  - eauto.
  - destruct (chan_send_room (doneChan s) tt) as [q ->]; [done| |eauto].
    assert (exited w = 0) as Hex by (unfold exited; by rewrite Hwpc).
    pose proof (exited_lt _ _ _ Hw Hex). lia.
Qed.

Theorem progress n tasks (m0 : M) s :
  0 < n → Inv n tasks m0 s → cpc s = CSelect →
  ∃ a s', quiet a ∧ step a s = Some s'.
Proof.
  intros Hn HI Hc. pose proof HI as HI'. inv_split HI.
  rewrite Hc in Hcpc. unfold step. rewrite Hnp.
  assert (Hspawner : spawn_i s < n → ∃ a s', quiet a ∧
    match a with
    | AInterrupt => interrupt_step s
    | AProducer => producer_step s
    | ASpawner => spawner_step s
    | AWorker i => worker_step i s
    | ACoordDone => coord_done_step s
    | ACoordPremature => coord_premature_step s
    end = Some s').
  { intros Hlt. exists ASpawner. unfold spawner_step.
    destruct (Nat.ltb_spec (spawn_i s) (workersNumber s)); [|lia].
    eexists. by split. }
  destruct (ppc s) as [|[|t rest]|t rest| | |] eqn:Hp.
  - exists AProducer. unfold producer_step. rewrite Hp. eexists. by split.
  - exists AProducer. unfold producer_step. rewrite Hp. eexists. by split.
  - exists AProducer. unfold producer_step. rewrite Hp.
    destruct (chan_recv (signalChan s)) as [[o q]| |]; eexists; by split.
  - queue_open s Hclosed.
    destruct (decide (length (buf (jobsQueue s)) < n)) as [Hroom|Hfull].
    + exists AProducer. unfold producer_step. rewrite Hp.
      destruct (chan_send_room (jobsQueue s) t) as [q ->]; [done|lia|].
      eexists. by split.
    + destruct (decide (spawn_i s < n)) as [|Hall]; [by apply Hspawner|].
      destruct (workers s) as [|w ws] eqn:Hws; [simpl in *; lia|].
      assert (workers s !! 0 = Some w) as Hw by (by rewrite Hws).
      rewrite <- Hws in *.
      pose proof (Forall_lookup_1 _ _ _ _ (open_no_finished _ Hfin Hopen) Hw)
        as Hfw. simpl in Hfw.
      destruct (worker_can_move _ _ _ _ 0 w HI' Hw) as [s' Hs'].
      * intros Hpc. unfold finished in Hfw. by rewrite Hpc in Hfw.
      * left. intros Hb. rewrite Hb in Hfull. simpl in Hfull. lia.
      * exists (AWorker 0), s'. by split.
  - exists ACoordPremature. unfold coord_premature_step. rewrite Hc, Hp.
    eexists. by split.
  - exists AProducer. unfold producer_step. rewrite Hp. eexists. by split.
  - assert (closed (jobsQueue s) = true) as Hcl by (by apply Hclosed).
    destruct (decide (spawn_i s < n)) as [|Hall]; [by apply Hspawner|].
    destruct (some_running (workers s)) as [(i & w & Hw & Hpc)|Hex].
    + destruct (worker_can_move _ _ _ _ i w HI' Hw Hpc) as [s' Hs'];
        [by right|].
      exists (AWorker i), s'. by split.
    + exists ACoordDone. unfold coord_done_step. rewrite Hc.
      unfold chan_recv.
      destruct (buf (doneChan s)) as [|x r] eqn:Hb; [simpl in *; lia|].
      eexists. by split.
Qed.

(** ** Every run ends with [RunBlocking] returning *)

Lemma inevitably_mono (allow : Action → Prop) (P Q : State T M → Prop) s :
  (∀ s, P s → Q s) → inevitably allow P s → inevitably allow Q s.
Proof.
  intros HPQ. induction 1 as [s HP|s Hex _ IH].
  - apply inev_now. auto.
  - apply inev_step; auto.
Qed.

(** [K] is any property of states that the allowed transitions keep. *)
Lemma inevitably_returned n tasks (m0 : M) (allow : Action → Prop)
    (K : State T M → Prop) :
  0 < n →
  (∀ a, quiet a → allow a) →
  (∀ a s s', allow a → K s → step a s = Some s' → K s') →
  ∀ s, Inv n tasks m0 s → K s →
       inevitably allow (λ s', returned s' ∧ Inv n tasks m0 s' ∧ K s') s.
Proof.
  intros Hn Hquiet HK s. remember (measure s) as k eqn:Hk.
  revert s Hk. induction k as [k IH] using lt_wf_ind. intros s -> HI HKs.
  destruct (cpc s) eqn:Hc.
  - apply inev_step.
    + destruct (progress _ _ _ _ Hn HI Hc) as (a & s' & Ha & Hs).
      exists a, s'. auto.
    + intros a s' Ha Hs.
      eapply (IH (measure s')); eauto using step_measure, step_Inv.
  - by apply inev_now.
Qed.
Lemma reachable_inevitably_returned n tasks (m0 : M) s :
  0 < n → reachable n tasks m0 s →
  inevitably any_action (λ s', returned s' ∧ Inv n tasks m0 s') s.
Proof.
  intros Hn Hr.
  eapply inevitably_mono;
    [|apply (inevitably_returned n tasks m0 any_action (λ _, True));
      eauto using reachable_Inv; done].
  simpl. tauto.
Qed.

(** ** The state in which [RunBlocking] returns *)

Lemma all_exited (ws : list (Worker T)) :
  sum_list_with exited ws = length ws → Forall (λ w, wpc w = WExit) ws.
Proof.
  induction ws as [|w ws IH]; simpl; intros Hs; [done|].
  pose proof (exited_le ws).
  destruct w as [[] ? ?]; simpl in *; try lia.
  constructor; [done|]. apply IH. lia.
Qed.

Lemma exited_inflight (ws : list (Worker T)) :
  Forall (λ w, wpc w = WExit) ws → ws ≫= inflight = [].
Proof.
  induction 1 as [|w ws Hw _ IH]; [done|].
  rewrite bind_cons, IH. unfold inflight. by rewrite Hw.
Qed.

Lemma returned_AtReturn n tasks (m0 : M) s :
  0 < n → Inv n tasks m0 s → returned s → AtReturn n s.
Proof.
  intros Hn HI Hret. inv_split HI. unfold returned in Hret.
  rewrite Hret in Hcpc.
  pose proof (exited_le (workers s)) as Hle.
  assert (Hlen : length (workers s) = n) by lia.
  assert (Hsum : sum_list_with exited (workers s) = length (workers s)) by lia.
  assert (Hall : Forall (λ w, wpc w = WExit) (workers s))
    by (by apply all_exited).
  assert (Hcl : closed (jobsQueue s) = true ∧ buf (jobsQueue s) = []).
  { destruct (workers s) as [|w ws]; [simpl in *; lia|].
    apply Forall_cons in Hfin as [Hw _]. apply Forall_cons in Hall as [Hx _].
    apply Hw. unfold finished. by rewrite Hx. }
  destruct Hcl as [Hcl Hemp].
  constructor; try done.
  - eapply Forall_impl; [apply Forall_and; split; [exact Hall|exact Hwsig]|].
    simpl. intros w [Hx ->]. unfold exited. by rewrite Hx.
  - destruct (buf (doneChan s)); [done|simpl in *; lia].
  - by apply Hclosed.
  - by rewrite Hclosers, Hcl.
  - rewrite Hflow, Hemp, (exited_inflight _ Hall). by rewrite !app_nil_r.
Qed.

(** ** Runs from an intermediate state *)


(** ** What a transition leaves alone *)

Ltac step_cases Hs :=
  unfold step, interrupt_step, producer_step, producer_close, spawner_step,
    worker_step, coord_done_step, coord_premature_step, check_done,
    chan_send, chan_recv, chan_close, panic, set_worker in Hs;
  repeat case_match; simplify_eq; simpl in *.

Lemma step_frame a s s' :
  step a s = Some s' →
  workersNumber s' = workersNumber s ∧ jobs s' = jobs s ∧
  cap (jobsQueue s') = cap (jobsQueue s) ∧
  cap (doneChan s') = cap (doneChan s).
Proof. intros Hs. step_cases Hs; done. Qed.

Lemma step_not_producer a s s' :
  step a s = Some s' → a ≠ AProducer →
  closers s' = closers s ∧ closed (jobsQueue s') = closed (jobsQueue s) ∧
  sent s' = sent s.
Proof. intros Hs Ha. step_cases Hs; done. Qed.

Lemma step_quiet a s s' :
  step a s = Some s' → quiet a → interrupted s' = interrupted s.
Proof. unfold quiet. intros Hs Ha. step_cases Hs; done. Qed.

(** ** The result of a run *)

Lemma err_cancels n tasks (m0 : M) s :
  Inv n tasks m0 s →
  (err s = None ∧ cancels s = 0) ∨
  (err s = Some ErrTasksNotCompleted ∧ cancels s = 1).
Proof.
  intros HI. inv_split HI.
  destruct (ppc s) as [| | | | |];
    [destruct Hprod as (_ & _ & ? & ?); by left..| |].
  - destruct Hprod as (_ & _ & ? & ?). by right.
  - destruct Hprod as [(_ & _ & ? & ?)|(_ & _ & ? & ?)]; [by left|by right].
Qed.

Lemma returned_complete n tasks (m0 : M) s :
  0 < n → Inv n tasks m0 s → returned s → cancels s = 0 →
  err s = None ∧ sent s = tasks ∧ executed s ≡ₚ tasks ∧
  mem s = foldl (λ m j, Execute j m) m0 (executed s).
Proof.
  intros Hn HI Hret Hc.
  destruct (returned_AtReturn _ _ _ _ Hn HI Hret).
  inv_split HI. rewrite ret_producer0 in Hprod.
  destruct Hprod as [(Hs & _ & _ & He)|(_ & _ & ? & _)]; [|lia].
  repeat split; try done. by rewrite <- Hs.
Qed.


Lemma prefix_take (l k r : list T) : l ++ r = k → l = take (length l) k.
Proof. intros <-. by rewrite take_app_length. Qed.

Lemma sent_prefix n tasks (m0 : M) s :
  Inv n tasks m0 s → ∃ rest, sent s ++ rest = tasks.
Proof.
  intros HI. inv_split HI. destruct (ppc s) as [|rest|t rest| | |].
  - destruct Hprod as (-> & _). by exists tasks.
  - destruct Hprod as (? & _). by exists rest.
  - destruct Hprod as (? & _). by exists (t :: rest).
  - destruct Hprod as ((t & rest & ?) & _). by exists (t :: rest).
  - destruct Hprod as ((t & rest & ?) & _). by exists (t :: rest).
  - destruct Hprod as [(-> & _)|((t & rest & ?) & _)].
    + exists []. by rewrite app_nil_r.
    + by exists (t :: rest).
Qed.

Lemma polls_count n tasks (m0 : M) s :
  Inv n tasks m0 s → polls s = length (sent s) + open_polls s.
Proof.
  intros HI. inv_split HI. unfold open_polls.
  destruct (ppc s) as [|rest|t rest| | |].
  - destruct Hprod as (-> & ? & ? & ?). simpl. lia.
  - destruct Hprod as (? & ? & ? & ?). lia.
  - destruct Hprod as (? & ? & ? & ?). lia.
  - destruct Hprod as (? & ? & ? & ?). lia.
  - destruct Hprod as (? & ? & ? & ?). lia.
  - destruct Hprod as [(? & ? & ? & ?)|(? & ? & ? & ?)]; lia.
Qed.

Lemma executed_in_tasks n tasks (m0 : M) s j :
  Inv n tasks m0 s → j ∈ executed s → j ∈ tasks.
Proof.
  intros HI Hj. destruct (sent_prefix _ _ _ _ HI) as [rest <-].
  apply elem_of_app. left. rewrite (inv_flow _ _ _ _ HI).
  apply elem_of_app. by left.
Qed.

Lemma signals_exited (ws : list (Worker T)) :
  Forall (λ w, signals w = exited w) ws →
  sum_list_with signals ws = sum_list_with exited ws.
Proof. induction 1 as [|w ws Hw _ IH]; simpl; [done|]. by rewrite Hw, IH. Qed.
End PoolProofs.

(** * The contract of [RunBlocking] *)

Section Claims.
Context {T M : Type} `{!Tasker T M}.
Implicit Types (s : State T M) (a : Action) (n : nat) (tasks : list T).

(** C1.  In a run in which no interrupt is delivered, [RunBlocking] returns
    on every schedule, it returns [nil], the [Execute] calls that have been
    made are the tasks of the caller's slice, each slot once, and the
    caller's memory is what those calls made of it.  (The slice may even be
    empty.) *)
Theorem RunBlocking_runs_every_task_once n tasks (m0 : M) s :
  0 < n → reachable n tasks m0 s → interrupted s = false →
  inevitably quiet
    (λ s', returned s' ∧ err s' = None ∧ executed s' ≡ₚ tasks ∧
           mem s' = foldl (λ m j, Execute j m) m0 (executed s')) s
  ∧ (returned s →
     err s = None ∧ executed s ≡ₚ tasks ∧
     mem s = foldl (λ m j, Execute j m) m0 (executed s)).
Proof.
  intros Hn Hr Hi. pose proof (reachable_Inv _ _ _ _ Hn Hr) as HI.
  assert (Hfacts : ∀ s', returned s' ∧ Inv n tasks m0 s' ∧ interrupted s' = false →
    returned s' ∧ err s' = None ∧ executed s' ≡ₚ tasks ∧
    mem s' = foldl (λ m j, Execute j m) m0 (executed s')).
  { intros s' (Hret & HI' & Hi').
    destruct (inv_int _ _ _ _ HI' Hi') as (_ & Hc & _).
    destruct (returned_complete _ _ _ _ Hn HI' Hret Hc) as (? & ? & ? & ?).
    done. }
  split.
  - eapply inevitably_mono; [exact Hfacts|].
    apply (inevitably_returned n tasks m0 quiet (λ s', interrupted s' = false));
      try done.
    intros a s1 s2 Ha Hs1 Hst. by rewrite (step_quiet _ _ _ Hst Ha).
  - intros Hret. by apply Hfacts.
Qed.

(** C3.  When [RunBlocking] has returned, it has counted [workersNumber]
    completion signals, that many workers were spawned, every one of them
    has posted its signal and none is left in [doneChan].  Taking the
    cancellation case of the select sets the error and leaves the
    coordinator in its loop, below the count; below the count it never
    returns.  The count is reached on every schedule. *)
Theorem coordinator_waits_for_all_workers n tasks (m0 : M) s :
  0 < n → reachable n tasks m0 s →
  (returned s →
   totalDone s = n ∧ length (workers s) = n ∧
   Forall (λ w, wpc w = WExit ∧ signals w = 1) (workers s) ∧
   buf (doneChan s) = []) ∧
  (∀ s', coord_premature_step s = Some s' →
     err s' = Some ErrTasksNotCompleted ∧ cpc s' = CSelect ∧
     totalDone s' < n) ∧
  (totalDone s < n → cpc s = CSelect) ∧
  inevitably any_action returned s.
Proof.
  intros Hn Hr. pose proof (reachable_Inv _ _ _ _ Hn Hr) as HI.
  split; [|split; [|split]].
  - intros Hret. by destruct (returned_AtReturn _ _ _ _ Hn HI Hret).
  - intros s' Hs. pose proof (inv_cpc _ _ _ _ HI) as Hcpc.
    pose proof (inv_wn _ _ _ _ HI) as Hwn.
    unfold coord_premature_step in Hs.
    destruct (cpc s) eqn:Hc; [|done]. destruct (ppc s); try done.
    injection Hs as <-. unfold check_done. simpl.
    destruct (Nat.eqb_spec (totalDone s) (workersNumber s)); [lia|].
    simpl. by rewrite Hc.
  - intros Hlt. pose proof (inv_cpc _ _ _ _ HI) as Hcpc.
    destruct (cpc s); [done|lia].
  - eapply inevitably_mono; [|by apply reachable_inevitably_returned].
    simpl. tauto.
Qed.

(** C5.  The queue has been closed once, by [populateQueue], as soon as
    [populateQueue] has returned (by either path) and so whenever
    [RunBlocking] has returned, and never before; no close has panicked.  No
    transition of a worker, of the coordinator or of [parallelizeWorkers]
    closes it.  A worker leaves its [range] loop only when the queue is
    closed and drained, and on an open empty queue it can only wait. *)
Theorem queue_closed_once_by_producer n tasks (m0 : M) s :
  0 < n → reachable n tasks m0 s →
  closers s = (if closed (jobsQueue s) then [Producer] else []) ∧
  (closed (jobsQueue s) = true ↔ ppc s = PReturned) ∧
  panicked s = false ∧
  (returned s → closers s = [Producer]) ∧
  (∀ a s', step a s = Some s' → a ≠ AProducer →
     closers s' = closers s ∧
     closed (jobsQueue s') = closed (jobsQueue s)) ∧
  (∀ i w, workers s !! i = Some w →
     (finished w = true →
      closed (jobsQueue s) = true ∧ buf (jobsQueue s) = []) ∧
     (wpc w = WRange → closed (jobsQueue s) = false →
      buf (jobsQueue s) = [] → step (AWorker i) s = None)) ∧
  inevitably any_action (λ s', closers s' = [Producer]) s.
Proof.
  intros Hn Hr. pose proof (reachable_Inv _ _ _ _ Hn Hr) as HI.
  split; [apply (inv_closers _ _ _ _ HI)|].
  split; [apply (inv_closed _ _ _ _ HI)|].
  split; [apply (inv_nopanic _ _ _ _ HI)|].
  split; [|split; [|split]].
  - intros Hret. by destruct (returned_AtReturn _ _ _ _ Hn HI Hret).
  - intros a s' Hs Ha.
    by destruct (step_not_producer _ _ _ Hs Ha) as (? & ? & _).
  - intros i w Hw. split.
    + apply (Forall_lookup_1 _ _ _ _ (inv_fin _ _ _ _ HI) Hw).
    + intros Hpc Hopen Hemp. unfold step, worker_step, chan_recv.
      by rewrite (inv_nopanic _ _ _ _ HI), Hw, Hpc, Hemp, Hopen.
  - eapply inevitably_mono; [|by apply reachable_inevitably_returned].
    simpl. intros s' [Hret HI'].
    by destruct (returned_AtReturn _ _ _ _ Hn HI' Hret).
Qed.

(** C6.  A worker has posted at most one completion signal, and exactly one
    when it has exited; it is at line 74 or past it only when the queue is
    closed and drained; once it has exited it makes no further move.  When
    [RunBlocking] has returned the worker has exited with one signal posted,
    which happens on every schedule.  None of this depends on
    [processed w]. *)
Theorem worker_signals_once n tasks (m0 : M) s (i : nat) (w : Worker T) :
  0 < n → reachable n tasks m0 s → workers s !! i = Some w →
  signals w ≤ 1 ∧
  (signals w = 1 ↔ wpc w = WExit) ∧
  (wpc w = WDoneSend ∨ wpc w = WExit →
   closed (jobsQueue s) = true ∧ buf (jobsQueue s) = []) ∧
  (wpc w = WExit → step (AWorker i) s = None) ∧
  (returned s → wpc w = WExit ∧ signals w = 1) ∧
  inevitably any_action
    (λ s', ∃ w', workers s' !! i = Some w' ∧
                 wpc w' = WExit ∧ signals w' = 1) s.
Proof.
  intros Hn Hr Hw. pose proof (reachable_Inv _ _ _ _ Hn Hr) as HI.
  pose proof (Forall_lookup_1 _ _ _ _ (inv_wsig _ _ _ _ HI) Hw) as Hsig.
  pose proof (Forall_lookup_1 _ _ _ _ (inv_fin _ _ _ _ HI) Hw) as Hfin.
  simpl in Hsig, Hfin. unfold exited in Hsig. unfold finished in Hfin.
  split; [destruct (wpc w); lia|].
  split; [destruct (wpc w); split; (done || lia)|].
  split; [intros [Hpc|Hpc]; rewrite Hpc in Hfin; by apply Hfin|].
  split; [|split].
  - intros Hpc. unfold step, worker_step.
    rewrite Hw, Hpc. by destruct (panicked s).
  - intros Hret. destruct (returned_AtReturn _ _ _ _ Hn HI Hret).
    apply (Forall_lookup_1 _ _ _ _ ret_exited0 Hw).
  - eapply inevitably_mono; [|by apply reachable_inevitably_returned].
    simpl. intros s' [Hret HI'].
    destruct (returned_AtReturn _ _ _ _ Hn HI' Hret).
    destruct (inv_spawn _ _ _ _ HI) as [Hsp Hle].
    apply lookup_lt_Some in Hw.
    destruct (lookup_lt_is_Some_2 (workers s') i) as [w' Hw']; [lia|].
    exists w'. split; [done|].
    apply (Forall_lookup_1 _ _ _ _ ret_exited0 Hw').
Qed.

(** C8.  [workersNumber] is the processor count it was initialised with
    and no transition changes it; both channels were made with that
    capacity; [parallelizeWorkers] has spawned [spawn_i] workers, never
    more than [workersNumber], it can always spawn the next one, and
    [RunBlocking] returns only with all [workersNumber] of them spawned,
    which comes about on every schedule. *)
Theorem worker_count_fixed n tasks (m0 : M) s :
  0 < n → reachable n tasks m0 s →
  workersNumber (start n tasks m0) = n ∧
  workersNumber s = n ∧
  (∀ a s', step a s = Some s' → workersNumber s' = workersNumber s) ∧
  cap (jobsQueue s) = n ∧ cap (doneChan s) = n ∧
  length (workers s) = spawn_i s ∧ spawn_i s ≤ n ∧
  (spawn_i s < n → ∃ s', step ASpawner s = Some s' ∧
                         length (workers s') = S (length (workers s))) ∧
  (returned s → length (workers s) = n) ∧
  inevitably any_action (λ s', length (workers s') = n) s.
Proof.
  intros Hn Hr. pose proof (reachable_Inv _ _ _ _ Hn Hr) as HI.
  pose proof (inv_spawn _ _ _ _ HI) as [Hsp Hle].
  split; [done|].
  split; [apply (inv_wn _ _ _ _ HI)|].
  split; [intros a s' Hs; by destruct (step_frame _ _ _ Hs)|].
  split; [apply (inv_qcap _ _ _ _ HI)|].
  split; [apply (inv_dcap _ _ _ _ HI)|].
  split; [done|]. split; [done|].
  split; [|split].
  - intros Hlt. unfold step, spawner_step.
    rewrite (inv_nopanic _ _ _ _ HI), (inv_wn _ _ _ _ HI).
    destruct (Nat.ltb_spec (spawn_i s) n); [|lia].
    eexists. split; [done|]. simpl. rewrite length_app. simpl. lia.
  - intros Hret. by destruct (returned_AtReturn _ _ _ _ Hn HI Hret).
  - eapply inevitably_mono; [|by apply reachable_inevitably_returned].
    simpl. intros s' [Hret HI'].
    by destruct (returned_AtReturn _ _ _ _ Hn HI' Hret).
Qed.

(** C10.  [doneChan] has room for [workersNumber] signals.  The signals in
    it and those the coordinator has counted are together the signals the
    workers have posted, at most one each and so at most [workersNumber];
    hence a worker at line 74 can always post, [totalDone] never exceeds
    [workersNumber], [RunBlocking] has returned exactly when [totalDone] is
    [workersNumber], and that state is reached on every schedule. *)
Theorem doneChan_never_blocks n tasks (m0 : M) s :
  0 < n → reachable n tasks m0 s →
  cap (doneChan s) = n ∧
  length (buf (doneChan s)) + totalDone s = sum_list_with signals (workers s) ∧
  Forall (λ w, signals w ≤ 1) (workers s) ∧
  sum_list_with signals (workers s) ≤ n ∧
  totalDone s ≤ n ∧
  (∀ i w, workers s !! i = Some w → wpc w = WDoneSend →
     length (buf (doneChan s)) < cap (doneChan s) ∧
     ∃ s', step (AWorker i) s = Some s') ∧
  (returned s ↔ totalDone s = n) ∧
  inevitably any_action (λ s', returned s' ∧ totalDone s' = n) s.
Proof.
  intros Hn Hr. pose proof (reachable_Inv _ _ _ _ Hn Hr) as HI.
  pose proof (inv_spawn _ _ _ _ HI) as [Hsp Hle].
  pose proof (inv_done _ _ _ _ HI) as Hdone.
  pose proof (inv_cpc _ _ _ _ HI) as Hcpc.
  pose proof (signals_exited _ (inv_wsig _ _ _ _ HI)) as Hsig.
  pose proof (exited_le (workers s)) as Hex.
  split; [apply (inv_dcap _ _ _ _ HI)|].
  split; [lia|].
  split.
  { eapply Forall_impl; [apply (inv_wsig _ _ _ _ HI)|].
    simpl. intros w ->. unfold exited. destruct (wpc w); lia. }
  split; [lia|]. split; [lia|].
  split; [|split].
  - intros i w Hw Hpc.
    assert (exited w = 0) as Hw0 by (unfold exited; by rewrite Hpc).
    pose proof (exited_lt _ _ _ Hw Hw0).
    split; [rewrite (inv_dcap _ _ _ _ HI); lia|].
    unfold step. rewrite (inv_nopanic _ _ _ _ HI).
    apply (worker_can_move n tasks m0 s i w HI Hw); [congruence|].
    right. apply (Forall_lookup_1 _ _ _ _ (inv_fin _ _ _ _ HI) Hw).
    unfold finished. by rewrite Hpc.
  - unfold returned. destruct (cpc s); split; (done || lia).
  - eapply inevitably_mono; [|by apply reachable_inevitably_returned].
    simpl. intros s' [Hret HI'].
    by destruct (returned_AtReturn _ _ _ _ Hn HI' Hret).
Qed.
End Claims.

(** * The tasks of the tests *)

Section TestTasks.
Implicit Types (h : Heap) (l : list TestTask) (p : nat).

Lemma Execute_pointer p h :
  Execute (PtrDummy p) h = <[p := MkDummy true]> h.
Proof. reflexivity. Qed.

Lemma Execute_value (v : dummyNop) h : Execute (ValDummyNop v) h = h.
Proof. reflexivity. Qed.

Lemma Execute_length (t : TestTask) h : length (Execute t h) = length h.
Proof.
  destruct t; [rewrite Execute_pointer; apply length_insert|done].
Qed.

(** Cells that no task points to keep their contents. *)
Lemma run_all_frame l h p :
  PtrDummy p ∉ l → run_all h l !! p = h !! p.
Proof.
  revert h. induction l as [|t l IH]; intros h Hp; simpl; [done|].
  apply not_elem_of_cons in Hp as [Hne Hp]. rewrite (IH _ Hp).
  destruct t as [q|v]; [|done].
  rewrite Execute_pointer. apply list_lookup_insert_ne. congruence.
Qed.

Lemma run_all_keeps l h p :
  h !! p = Some (MkDummy true) → run_all h l !! p = Some (MkDummy true).
Proof.
  revert h. induction l as [|t l IH]; intros h Hp; simpl; [done|].
  apply IH. destruct t as [q|v]; [|done].
  rewrite Execute_pointer. destruct (decide (q = p)) as [->|Hne].
  - apply list_lookup_insert_eq. by apply lookup_lt_Some in Hp.
  - by rewrite list_lookup_insert_ne.
Qed.

(** A cell that some task points to ends up [done]. *)
Lemma run_all_sets l h p :
  PtrDummy p ∈ l → p < length h → run_all h l !! p = Some (MkDummy true).
Proof.
  revert h. induction l as [|t l IH]; intros h Hin Hlt; simpl.
  - by apply elem_of_nil in Hin.
  - apply elem_of_cons in Hin as [<-|Hin].
    + apply run_all_keeps. rewrite Execute_pointer.
      by apply list_lookup_insert_eq.
    + apply IH; [done|]. by rewrite Execute_length.
Qed.

Lemma none_done_no_pointer l p : none_done l = true → PtrDummy p ∉ l.
Proof.
  induction l as [|t l IH]; simpl; intros Hn Hin.
  - by apply elem_of_nil in Hin.
  - apply andb_prop in Hn as [Ht Hl].
    apply elem_of_cons in Hin as [<-|Hin]; [done|by apply IH].
Qed.

Lemma all_done_intro h l :
  (∀ t, t ∈ l → ∃ p, t = PtrDummy p ∧ h !! p = Some (MkDummy true)) →
  all_done h l = true.
Proof.
  induction l as [|t l IH]; simpl; intros Hall; [done|].
  destruct (Hall t) as (p & -> & Hp); [by left|].
  rewrite Hp. simpl. apply IH. intros t' Ht'. apply Hall. by right.
Qed.

(** C9.  The pool leaves the caller's slice as it was and writes to the
    caller's memory through [Execute] only.  [Execute] on a [dummyNop] held
    by value changes no memory, so when all tasks are such values with
    [done] unset, the check of [TestRunBlocking_nopointer] passes on the
    slice and the memory is as before the call.  [Execute] on a pointer to
    a [dummy] sets that cell: after a run that was not cancelled every cell
    a task points to is [done], and if all tasks are pointers the check of
    [TestRunBlocking] passes.  Cells no task points to are never
    changed. *)
Theorem binding_decides_visibility (n : nat) l h (s : State TestTask Heap) :
  0 < n → reachable n l h s →
  jobs s = l ∧
  mem s = run_all h (executed s) ∧
  (∀ v h', Execute (ValDummyNop v) h' = h') ∧
  (∀ p, PtrDummy p ∉ l → mem s !! p = h !! p) ∧
  (none_done l = true → none_done (jobs s) = true ∧ mem s = h) ∧
  (∀ p, returned s → cancels s = 0 → PtrDummy p ∈ l → p < length h →
        mem s !! p = Some (MkDummy true)) ∧
  (returned s → cancels s = 0 →
   Forall (λ t, ∃ p, t = PtrDummy p ∧ p < length h) l →
   all_done (mem s) (jobs s) = true).
Proof.
  intros Hn Hr. pose proof (reachable_Inv _ _ _ _ Hn Hr) as HI.
  pose proof (inv_mem _ _ _ _ HI) as Hmem.
  pose proof (inv_jobs _ _ _ _ HI) as Hjobs.
  assert (Hframe : ∀ p, PtrDummy p ∉ l → mem s !! p = h !! p).
  { intros p Hp. rewrite Hmem. apply run_all_frame.
    intros Hin. apply Hp. by apply (executed_in_tasks _ _ _ _ _ HI). }
  assert (Hset : ∀ p, returned s → cancels s = 0 → PtrDummy p ∈ l →
                      p < length h → mem s !! p = Some (MkDummy true)).
  { intros p Hret Hc Hin Hlt.
    destruct (returned_complete _ _ _ _ Hn HI Hret Hc) as (_ & _ & Hperm & _).
    rewrite Hmem. apply run_all_sets; [by rewrite Hperm|done]. }
  split; [done|]. split; [done|]. split; [done|]. split; [done|].
  split; [|split; [done|]].
  - intros Hnone. split; [by rewrite Hjobs|].
    apply list_eq. intros p. apply Hframe. by apply none_done_no_pointer.
  - intros Hret Hc Hall. rewrite Hjobs. apply all_done_intro.
    intros t Ht. destruct (proj1 (Forall_forall _ _) Hall t Ht) as (p & -> & Hlt).
    exists p. split; [done|]. by apply Hset.
Qed.
End TestTasks.

(** * The contract on the runs of the tests' tasks *)

Lemma RunBlocking_runs_every_task_once_witness :
  inevitably quiet
    (λ s', returned s' ∧ err s' = None ∧ executed s' ≡ₚ demo_tasks ∧
           mem s' = foldl (λ m j, Execute j m) demo_heap (executed s'))
    (demo_state quiet_schedule)
  ∧ (returned (demo_state quiet_schedule) →
     err (demo_state quiet_schedule) = None ∧
     executed (demo_state quiet_schedule) ≡ₚ demo_tasks ∧
     mem (demo_state quiet_schedule) =
       foldl (λ m j, Execute j m) demo_heap
         (executed (demo_state quiet_schedule))).
Proof.
  apply (RunBlocking_runs_every_task_once 2 demo_tasks demo_heap).
  - lia.
  - exists quiet_schedule. vm_compute. reflexivity.
  - vm_compute. reflexivity.
Defined.


Lemma coordinator_waits_for_all_workers_witness :
  let s := demo_state (cancel_schedule ++ drain_schedule) in
  (returned s →
   totalDone s = 2 ∧ length (workers s) = 2 ∧
   Forall (λ w, wpc w = WExit ∧ signals w = 1) (workers s) ∧
   buf (doneChan s) = []) ∧
  (∀ s', coord_premature_step s = Some s' →
     err s' = Some ErrTasksNotCompleted ∧ cpc s' = CSelect ∧
     totalDone s' < 2) ∧
  (totalDone s < 2 → cpc s = CSelect) ∧
  inevitably any_action returned s.
Proof.
  apply (coordinator_waits_for_all_workers 2 demo_tasks demo_heap).
  - lia.
  - exists (cancel_schedule ++ drain_schedule). vm_compute. reflexivity.
Defined.


Lemma queue_closed_once_by_producer_witness :
  let s := demo_state (cancel_schedule ++ drain_schedule) in
  closers s = (if closed (jobsQueue s) then [Producer] else []) ∧
  (closed (jobsQueue s) = true ↔ ppc s = PReturned) ∧
  panicked s = false ∧
  (returned s → closers s = [Producer]) ∧
  (∀ a s', step a s = Some s' → a ≠ AProducer →
     closers s' = closers s ∧
     closed (jobsQueue s') = closed (jobsQueue s)) ∧
  (∀ i w, workers s !! i = Some w →
     (finished w = true →
      closed (jobsQueue s) = true ∧ buf (jobsQueue s) = []) ∧
     (wpc w = WRange → closed (jobsQueue s) = false →
      buf (jobsQueue s) = [] → step (AWorker i) s = None)) ∧
  inevitably any_action (λ s', closers s' = [Producer]) s.
Proof.
  apply (queue_closed_once_by_producer 2 demo_tasks demo_heap).
  - lia.
  - exists (cancel_schedule ++ drain_schedule). vm_compute. reflexivity.
Defined.

(** The second worker of the cancelled run has executed nothing. *)
Lemma worker_signals_once_witness :
  let s := demo_state (cancel_schedule ++ drain_schedule) in
  let w : Worker TestTask := MkWorker WExit 0 1 in
  signals w ≤ 1 ∧
  (signals w = 1 ↔ wpc w = WExit) ∧
  (wpc w = WDoneSend ∨ wpc w = WExit →
   closed (jobsQueue s) = true ∧ buf (jobsQueue s) = []) ∧
  (wpc w = WExit → step (AWorker 1) s = None) ∧
  (returned s → wpc w = WExit ∧ signals w = 1) ∧
  inevitably any_action
    (λ s', ∃ w', workers s' !! 1 = Some w' ∧
                 wpc w' = WExit ∧ signals w' = 1) s.
Proof.
  apply (worker_signals_once 2 demo_tasks demo_heap).
  - lia.
  - exists (cancel_schedule ++ drain_schedule). vm_compute. reflexivity.
  - vm_compute. reflexivity.
Defined.


Lemma worker_count_fixed_witness :
  let s := demo_state quiet_schedule in
  workersNumber (start 2 demo_tasks demo_heap) = 2 ∧
  workersNumber s = 2 ∧
  (∀ a s', step a s = Some s' → workersNumber s' = workersNumber s) ∧
  cap (jobsQueue s) = 2 ∧ cap (doneChan s) = 2 ∧
  length (workers s) = spawn_i s ∧ spawn_i s ≤ 2 ∧
  (spawn_i s < 2 → ∃ s', step ASpawner s = Some s' ∧
                         length (workers s') = S (length (workers s))) ∧
  (returned s → length (workers s) = 2) ∧
  inevitably any_action (λ s', length (workers s') = 2) s.
Proof.
  apply (worker_count_fixed 2 demo_tasks demo_heap).
  - lia.
  - exists quiet_schedule. vm_compute. reflexivity.
Defined.

Lemma binding_decides_visibility_witness :
  let s := demo_state quiet_schedule in
  jobs s = demo_tasks ∧
  mem s = foldl (λ (m : Heap) (j : TestTask), Execute j m) demo_heap
            (executed s) ∧
  (∀ v h', Execute (ValDummyNop v) h' = h') ∧
  (∀ p, PtrDummy p ∉ demo_tasks → mem s !! p = demo_heap !! p) ∧
  (none_done demo_tasks = true →
   none_done (jobs s) = true ∧ mem s = demo_heap) ∧
  (∀ p, returned s → cancels s = 0 → PtrDummy p ∈ demo_tasks →
        p < length demo_heap → mem s !! p = Some (MkDummy true)) ∧
  (returned s → cancels s = 0 →
   Forall (λ t, ∃ p, t = PtrDummy p ∧ p < length demo_heap) demo_tasks →
   all_done (mem s) (jobs s) = true).
Proof.
  apply (binding_decides_visibility 2 demo_tasks demo_heap).
  - lia.
  - exists quiet_schedule. vm_compute. reflexivity.
Defined.

Lemma doneChan_never_blocks_witness :
  let s := demo_state (cancel_schedule ++ drain_schedule) in
  cap (doneChan s) = 2 ∧
  length (buf (doneChan s)) + totalDone s = sum_list_with signals (workers s) ∧
  Forall (λ w, signals w ≤ 1) (workers s) ∧
  sum_list_with signals (workers s) ≤ 2 ∧
  totalDone s ≤ 2 ∧
  (∀ i w, workers s !! i = Some w → wpc w = WDoneSend →
     length (buf (doneChan s)) < cap (doneChan s) ∧
     ∃ s', step (AWorker i) s = Some s') ∧
  (returned s ↔ totalDone s = 2) ∧
  inevitably any_action (λ s', returned s' ∧ totalDone s' = 2) s.
Proof.
  apply (doneChan_never_blocks 2 demo_tasks demo_heap).
  - lia.
  - exists (cancel_schedule ++ drain_schedule). vm_compute. reflexivity.
Defined.

(** * More on the pool *)

Section PoolExtras.
Context {T M : Type} `{!Tasker T M}.
Implicit Types (s : State T M) (a : Action) (n : nat) (tasks : list T).

Lemma cancelled_unsent n tasks (m0 : M) s :
  Inv n tasks m0 s → cancels s = 1 → ∃ t rest, sent s ++ t :: rest = tasks.
Proof.
  intros HI Hc. pose proof (inv_prod _ _ _ _ HI) as Hprod.
  destruct (ppc s) as [| | | | |].
  1-4: destruct Hprod as (_ & _ & ? & _); lia.
  - by destruct Hprod as (? & _).
  - destruct Hprod as [(_ & _ & ? & _)|(? & _)]; [lia|done].
Qed.

Lemma empty_slice_facts n (m0 : M) s :
  Inv n [] m0 s →
  sent s = [] ∧ executed s = [] ∧ mem s = m0 ∧ err s = None.
Proof.
  intros HI.
  assert (sent s = []) as Hsent.
  { destruct (sent_prefix _ _ _ _ HI) as [rest Hrest].
    by apply app_eq_nil in Hrest as [? _]. }
  assert (executed s = []) as Hex.
  { pose proof (inv_flow _ _ _ _ HI) as Hflow. rewrite Hsent in Hflow.
    apply Permutation_nil in Hflow. by apply app_eq_nil in Hflow as [? _]. }
  split; [done|]. split; [done|]. split.
  - by rewrite (inv_mem _ _ _ _ HI), Hex.
  - destruct (err_cancels _ _ _ _ HI) as [[? _]|[_ Hc]]; [done|].
    destruct (cancelled_unsent _ _ _ _ HI Hc) as (t & rest & Hs).
    by destruct (sent s).
Qed.

(** X1.  On an empty slice [RunBlocking] makes no [Execute] call, leaves the
    memory alone and returns [nil] on every schedule, also when SIGINT is
    delivered at any moment of the run: [populateQueue] never polls. *)
Theorem RunBlocking_empty_slice n (m0 : M) s :
  0 < n → reachable n [] m0 s →
  sent s = [] ∧ executed s = [] ∧ mem s = m0 ∧ err s = None ∧ polls s = 0 ∧
  inevitably any_action
    (λ s', returned s' ∧ err s' = None ∧ executed s' = [] ∧ mem s' = m0) s.
Proof.
  intros Hn Hr. pose proof (reachable_Inv _ _ _ _ Hn Hr) as HI.
  destruct (empty_slice_facts _ _ _ HI) as (Hs & He & Hm & Herr).
  split; [done|]. split; [done|]. split; [done|]. split; [done|]. split.
  - rewrite (polls_count _ _ _ _ HI), Hs. unfold open_polls.
    pose proof (inv_prod _ _ _ _ HI) as Hprod.
    destruct (err_cancels _ _ _ _ HI) as [[_ Hc]|[? _]]; [|congruence].
    destruct (ppc s) as [| | | | |]; simpl; try lia.
    all: exfalso; destruct Hprod as (Hp & _); try destruct Hp as (? & ? & Hp);
      by destruct (sent s).
  - eapply inevitably_mono; [|by apply reachable_inevitably_returned].
    simpl. intros s' [Hret HI'].
    by destruct (empty_slice_facts _ _ _ HI') as (_ & ? & ? & ?).
Qed.

Lemma step_polling_over n tasks (m0 : M) a s s' :
  Inv n tasks m0 s → polling_over s → step a s = Some s' → polling_over s'.
Proof.
  intros HI [Hc Hp] Hs. pose proof (inv_prod _ _ _ _ HI) as Hprod.
  unfold polling_over in *.
  unfold step, interrupt_step, producer_step, producer_close, spawner_step,
    worker_step, coord_done_step, coord_premature_step, check_done,
    chan_send, chan_recv, chan_close, panic, set_worker in Hs.
  repeat case_match; simplify_eq; simpl in *; try done; congruence.
Qed.

(** X2.  An interrupt that comes after the last poll of [populateQueue] is
    lost: from then on every schedule, with SIGINT delivered or not, ends
    with [RunBlocking] returning [nil], all tasks executed once. *)
Theorem late_interrupt_is_lost n tasks (m0 : M) s :
  0 < n → reachable n tasks m0 s → polling_over s →
  inevitably any_action
    (λ s', returned s' ∧ err s' = None ∧ sent s' = tasks ∧
           executed s' ≡ₚ tasks ∧
           mem s' = foldl (λ m j, Execute j m) m0 (executed s')) s.
Proof.
  intros Hn Hr Hover. pose proof (reachable_Inv _ _ _ _ Hn Hr) as HI.
  set (keep := λ s' : State T M, Inv n tasks m0 s' ∧ polling_over s').
  eapply inevitably_mono;
    [|apply (inevitably_returned n tasks m0 any_action keep); try done].
  - simpl. intros s' (Hret & HI' & _ & [Hc _]).
    split; [done|]. by apply (returned_complete n).
  - intros a s1 s2 _ [HI1 Ho1] Hst.
    split; [by eapply step_Inv|by eapply step_polling_over].
Qed.

Lemma inflight_le (ws : list (Worker T)) :
  length (ws ≫= inflight) ≤ length ws.
Proof.
  induction ws as [|w ws IH]; [done|].
  rewrite bind_cons, length_app. destruct w as [[] ? ?]; simpl; lia.
Qed.

(** X3.  The tasks sent and not yet executed are those in the queue and those
    the workers hold, one each at most: [populateQueue] is never more than
    twice [workersNumber] tasks ahead of the [Execute] calls completed. *)
Theorem producer_lead_bounded n tasks (m0 : M) s :
  0 < n → reachable n tasks m0 s →
  length (sent s) =
    length (executed s) + length (workers s ≫= inflight) +
    length (buf (jobsQueue s)) ∧
  length (workers s ≫= inflight) ≤ n ∧
  length (buf (jobsQueue s)) ≤ n ∧
  length (sent s) ≤ length (executed s) + 2 * n.
Proof.
  intros Hn Hr. pose proof (reachable_Inv _ _ _ _ Hn Hr) as HI.
  pose proof (inv_flow _ _ _ _ HI) as Hflow.
  apply Permutation_length in Hflow. rewrite !length_app in Hflow.
  pose proof (inflight_le (workers s)).
  destruct (inv_spawn _ _ _ _ HI). pose proof (inv_qlen _ _ _ _ HI).
  repeat split; lia.
Qed.

Lemma foldl_commute_perm (f : M → T → M) (l1 l2 : list T) :
  (∀ m x y, f (f m x) y = f (f m y) x) →
  l1 ≡ₚ l2 → ∀ m, foldl f m l1 = foldl f m l2.
Proof.
  intros Hf. induction 1 as [|x l1 l2 _ IH|x y l|l1 l2 l3 _ IH1 _ IH2];
    intros m; simpl.
  - done.
  - apply IH.
  - by rewrite Hf.
  - by rewrite IH1.
Qed.

(** X4.  When the [Execute] calls of the tasks commute, the memory with which
    [RunBlocking] returns is the one a loop over the tasks sent, in the
    order of the slice, would have left: over all of the slice when the
    run was not cancelled, over an initial segment of it when it was. *)
Theorem returned_memory_is_serial n tasks (m0 : M) s :
  (∀ (t1 t2 : T) (m : M),
     Execute t2 (Execute t1 m) = Execute t1 (Execute t2 m)) →
  0 < n → reachable n tasks m0 s → returned s →
  mem s = foldl (λ m j, Execute j m) m0 (sent s) ∧
  sent s = take (length (sent s)) tasks ∧
  (cancels s = 0 → mem s = foldl (λ m j, Execute j m) m0 tasks).
Proof.
  intros Hcomm Hn Hr Hret. pose proof (reachable_Inv _ _ _ _ Hn Hr) as HI.
  destruct (returned_AtReturn _ _ _ _ Hn HI Hret).
  assert (mem s = foldl (λ m j, Execute j m) m0 (sent s)) as Hmem.
  { rewrite (inv_mem _ _ _ _ HI).
    apply foldl_commute_perm; [|done]. intros m x y. apply Hcomm. }
  split; [done|]. split.
  - destruct (sent_prefix _ _ _ _ HI) as [rest Hrest].
    by apply prefix_take with rest.
  - intros Hc.
    destruct (returned_complete _ _ _ _ Hn HI Hret Hc) as (_ & Hs & _).
    rewrite Hmem. by rewrite Hs.
Qed.
End PoolExtras.

(** * The prime sieve and the jobs of [TestGain] *)

Section SieveProofs.
Context `{FloatSqrt}.
Local Open Scope Z_scope.

Lemma isPrime_loop_true (n : Z) (candidates : list Z) :
  isPrime_loop n candidates = true ↔ Forall (λ i, n mod i ≠ 0) candidates.
Proof.
  induction candidates as [|i rest IH]; simpl.
  - split; [constructor|done].
  - destruct (Z.eqb_spec (n mod i) 0) as [Hz|Hz].
    + split; [done|]. intros Hall. by apply Forall_cons in Hall as [? _].
    + rewrite IH. split; [by constructor|]. intros Hall.
      by apply Forall_cons in Hall as [_ ?].
Qed.

(** X6.  Where the square root that [math.Sqrt] yields truncates to the
    integer square root of [n], [isPrime n] holds exactly when [n] is at
    most 2 or is a prime number; so 0 and 1 count as primes. *)
Theorem isPrime_correct (n : Z) :
  0 ≤ n → sqrt64 n = Z.sqrt n →
  (isPrime n = true ↔ n ≤ 2 ∨ Z.prime n).
Proof.
  intros Hn Hroot. unfold isPrime. rewrite Hroot.
  destruct (Z.leb_spec n 2) as [Hle|Hgt]; [by split; [left|]|].
  rewrite isPrime_loop_true, Forall_seqZ.
  pose proof (Z.sqrt_spec n Hn) as Hspec. simpl in Hspec.
  pose proof (Z.sqrt_nonneg n) as Hnn.
  split.
  - intros Hnodiv. right. split; [lia|]. intros m Hm [q Hq].
    assert (Hcase : ∀ a b, 1 < a → a ≤ b → n = a * b → False).
    { intros a b Ha Hab Hn'.
      apply (Hnodiv a).
      - split; [lia|].
        assert (a ≤ Z.sqrt n); [|lia].
        apply Z.sqrt_le_square; [lia..|nia].
      - rewrite Hn'. rewrite Z.mul_comm. apply Z.mod_mul. lia. }
    assert (1 < q) by nia.
    destruct (Z.le_gt_cases m q).
    + apply (Hcase m q); [lia..|]. lia.
    + apply (Hcase q m); lia.
  - intros [Hle|[_ Hprime]] i Hi; [lia|].
    intros Hmod. apply (Hprime i).
    + split; [lia|]. assert (Z.sqrt n < n); [apply Z.sqrt_lt_lin|]; lia.
    + apply Z.mod_divide; [lia|done].
Qed.

(** ** The map that a sieve loop fills *)

Lemma fill_lookup (g : Z → bool) (l : list Z) (m : gmap Z bool) (i : Z) :
  foldl (λ (results : gmap Z bool) (k : Z), <[k := g k]> results) m l !! i =
  if decide (i ∈ l) then Some (g i) else m !! i.
Proof.
  revert m. induction l as [|k l IH]; intros m.
  - case_decide as Hin; [by apply elem_of_nil in Hin|done].
  - change (foldl ?f m (k :: l)) with (foldl f (f m k) l). rewrite IH.
    destruct (decide (i ∈ l)) as [Hin|Hout].
    + case_decide as Hin'; [done|]. destruct Hin'. by right.
    + destruct (decide (i = k)) as [->|Hne].
      * case_decide as Hin'; [|destruct Hin'; by left].
        by rewrite lookup_insert_eq.
      * case_decide as Hin'.
        { apply elem_of_cons in Hin' as [?|?]; done. }
        by rewrite lookup_insert_ne.
Qed.

Lemma sieve_lookup (lo hi i : Z) :
  sieve lo hi !! i =
  if decide (lo ≤ i ≤ hi) then Some (isPrime (uint64 i)) else None.
Proof.
  unfold sieve. rewrite fill_lookup.
  destruct (decide (lo ≤ i ≤ hi)) as [Hin|Hout].
  - case_decide as Hel; [done|]. destruct Hel. apply elem_of_seqZ. lia.
  - case_decide as Hel; [|done]. apply elem_of_seqZ in Hel. lia.
Qed.

(** X7.  [job.Execute] on the cell that [j] points to, where the loop ends
    ([stop] below the largest [int]): [start] and [stop] stay, [results]
    becomes a map whose keys are exactly the numbers from [start] to
    [stop], each with its [isPrime] verdict; it is empty when [start]
    exceeds [stop].  What [results] held before is dropped, so a second
    call changes nothing, and no other cell is touched. *)
Theorem job_Execute_results (j : nat) (h : list job) (c : job) :
  h !! j = Some c → job_stop c < 2 ^ 63 - 1 →
  ∃ c' results,
    Execute (PtrJob j) h !! j = Some c' ∧
    job_start c' = job_start c ∧ job_stop c' = job_stop c ∧
    job_results c' = Some results ∧
    (∀ i, results !! i =
          if decide (job_start c ≤ i ≤ job_stop c)
          then Some (isPrime (uint64 i)) else None) ∧
    (job_stop c < job_start c → results = ∅) ∧
    (∀ k, k ≠ j → Execute (PtrJob j) h !! k = h !! k) ∧
    length (Execute (PtrJob j) h) = length h ∧
    Execute (PtrJob j) (Execute (PtrJob j) h) = Execute (PtrJob j) h.
Proof.
  intros Hc _.
  change (Execute (PtrJob j)) with (job_Execute j). unfold job_Execute.
  eexists _, (sieve (job_start c) (job_stop c)).
  split; [by rewrite list_lookup_alter_eq, Hc|].
  split; [done|]. split; [done|]. split; [done|].
  split; [apply sieve_lookup|].
  split; [|split; [|split]].
  - intros Hlt. apply map_eq. intros i.
    rewrite sieve_lookup, lookup_empty. case_decide; [lia|done].
  - intros k Hk. by apply list_lookup_alter_ne.
  - apply length_alter.
  - rewrite list_alter_alter_eq. by apply list_alter_ext.
Qed.

(** ** The intervals that [TestGain] cuts *)

Lemma chained_le (lo hi : Z) (cells : list job) :
  chained lo cells hi → lo ≤ hi + 1.
Proof.
  revert lo. induction cells as [|c rest IH]; simpl; intros lo.
  - lia.
  - intros (? & ? & Hrest). specialize (IH _ Hrest). lia.
Qed.

Lemma chained_snoc (lo hi hi' : Z) (cells : list job) (r : option (gmap Z bool)) :
  chained lo cells hi → hi + 1 ≤ hi' →
  chained lo (cells ++ [MkJob (hi + 1) hi' r]) hi'.
Proof.
  revert lo. induction cells as [|c rest IH]; simpl; intros lo.
  - intros -> Hle. done.
  - intros (? & ? & Hrest) Hle. auto.
Qed.

Lemma chained_lookup (lo hi : Z) (cells : list job) (k : nat) (c : job) :
  chained lo cells hi → cells !! k = Some c →
  lo ≤ job_start c ∧ job_start c ≤ job_stop c ∧ job_stop c ≤ hi.
Proof.
  revert lo k. induction cells as [|c' rest IH]; intros lo [|k]; simpl;
    try done.
  - intros (? & ? & Hrest) [= <-]. apply chained_le in Hrest. lia.
  - intros (? & ? & Hrest) Hk. specialize (IH _ _ Hrest Hk). lia.
Qed.

Lemma chained_cover (lo hi i : Z) (cells : list job) :
  chained lo cells hi → lo ≤ i ≤ hi →
  ∃ k c, cells !! k = Some c ∧ job_start c ≤ i ≤ job_stop c.
Proof.
  revert lo. induction cells as [|c rest IH]; simpl; intros lo.
  - lia.
  - intros (? & ? & Hrest) Hi. destruct (decide (i ≤ job_stop c)).
    + exists 0%nat, c. split; [done|lia].
    + destruct (IH _ Hrest) as (k & c' & ? & ?); [lia|].
      by exists (S k), c'.
Qed.

Lemma chained_unique (lo hi i : Z) (cells : list job) (k1 k2 : nat)
    (c1 c2 : job) :
  chained lo cells hi →
  cells !! k1 = Some c1 → job_start c1 ≤ i ≤ job_stop c1 →
  cells !! k2 = Some c2 → job_start c2 ≤ i ≤ job_stop c2 →
  k1 = k2.
Proof.
  revert lo k1 k2. induction cells as [|c rest IH]; intros lo [|k1] [|k2];
    simpl; try done.
  - intros (? & ? & Hrest) [= <-] ? Hk2 ?.
    pose proof (chained_lookup _ _ _ _ _ Hrest Hk2). lia.
  - intros (? & ? & Hrest) Hk1 ? [= <-] ?.
    pose proof (chained_lookup _ _ _ _ _ Hrest Hk1). lia.
  - intros (? & ? & Hrest) ? ? ? ?. f_equal. by eapply IH.
Qed.

Lemma next_quotient (d m : Z) :
  0 < d → 0 ≤ m →
  ((m + 1) mod d = 0 → (m + 1) / d = m / d + 1 ∧ m + 1 = d * ((m + 1) / d)) ∧
  ((m + 1) mod d ≠ 0 → (m + 1) / d = m / d).
Proof. intros Hd Hm. Z.div_mod_to_equations. nia. Qed.

(** The state of the loop of lines 148-159 after the rounds 1 to [m]. *)
Lemma TestGain_rounds (d : Z) (m : nat) :
  0 < d →
  ∃ cells,
    foldl (TestGain_round d) (Some (1, [])) (seqZ 1 (Z.of_nat m)) =
      Some (d * (Z.of_nat m / d) + 1, cells) ∧
    chained 1 cells (d * (Z.of_nat m / d)) ∧
    Z.of_nat (length cells) = Z.of_nat m / d ∧
    Forall (λ c, job_results c = None) cells.
Proof.
  intros Hd. induction m as [|m (cells & Hfold & Hch & Hlen & Hnil)].
  - exists []. rewrite Z.div_0_l by lia. rewrite Z.mul_0_r. simpl.
    repeat split; done.
  - rewrite seqZ_S, foldl_app, Hfold. simpl.
    destruct (Z.eqb_spec d 0) as [|_]; [lia|].
    rewrite Z.rem_mod_nonneg by lia.
    destruct (next_quotient d (Z.of_nat m) Hd ltac:(lia)) as [Hzero Hnon].
    replace (Z.of_nat (S m)) with (Z.of_nat m + 1) by lia.
    replace (1 + Z.of_nat m) with (Z.of_nat m + 1) by lia.
    destruct (Z.eqb_spec ((Z.of_nat m + 1) mod d) 0) as [Hz|Hz].
    + destruct (Hzero Hz) as [Hq Hmul].
      exists (cells ++ [MkJob (d * (Z.of_nat m / d) + 1) (Z.of_nat m + 1) None]).
      split; [do 2 f_equal; lia|]. split; [|split].
      * rewrite <- Hmul. apply chained_snoc; [done|].
        pose proof (Z.mul_div_le (Z.of_nat m) d Hd). lia.
      * rewrite length_app. simpl. lia.
      * apply Forall_app. split; [done|]. by apply Forall_singleton.
    + rewrite (Hnon Hz). by exists cells.
Qed.

Lemma TestGain_jobs_Some (cores limit : Z) :
  1 ≤ cores ≤ limit →
  ∃ cells,
    TestGain_jobs cores limit = Some cells ∧
    chained 1 cells limit ∧
    Z.of_nat (length cells) = (limit - 1) / (limit / cores) + 1 ∧
    Forall (λ c, job_results c = None) cells.
Proof.
  intros Hc. unfold TestGain_jobs.
  rewrite Z.quot_div_nonneg by lia.
  assert (0 < limit / cores) as Hd by (apply Z.div_str_pos; lia).
  destruct (TestGain_rounds (limit / cores) (Z.to_nat (limit - 1)) Hd)
    as (cells & Hfold & Hch & Hlen & Hnil).
  rewrite Z2Nat.id in Hfold, Hch, Hlen by lia. rewrite Hfold.
  eexists. split; [done|]. split; [|split].
  - apply chained_snoc; [done|].
    pose proof (Z.mul_div_le (limit - 1) (limit / cores) Hd). lia.
  - rewrite length_app. simpl. lia.
  - apply Forall_app. split; [done|]. by apply Forall_singleton.
Qed.

(** X8.  For a number of cores between 1 and [limit], the loop of [TestGain]
    allocates jobs whose intervals follow one another from 1 to [limit]:
    every number of that range lies in the interval of exactly one job, no
    interval is empty or leaves the range, and no job has results yet. *)
Theorem TestGain_jobs_partition (cores limit : Z) :
  1 ≤ cores ≤ limit →
  ∃ cells,
    TestGain_jobs cores limit = Some cells ∧
    chained 1 cells limit ∧
    Forall (λ c, job_results c = None) cells ∧
    (∀ k c, cells !! k = Some c →
            1 ≤ job_start c ∧ job_start c ≤ job_stop c ∧ job_stop c ≤ limit) ∧
    (∀ i, 1 ≤ i ≤ limit →
          ∃ k c, cells !! k = Some c ∧ job_start c ≤ i ≤ job_stop c ∧
                 ∀ k' c', cells !! k' = Some c' →
                          job_start c' ≤ i ≤ job_stop c' → k' = k).
Proof.
  intros Hc. destruct (TestGain_jobs_Some _ _ Hc) as (cells & Hj & Hch & _ & Hnil).
  exists cells. split; [done|]. split; [done|]. split; [done|]. split.
  - intros k c Hk. by apply (chained_lookup _ _ _ _ _ Hch Hk).
  - intros i Hi. destruct (chained_cover _ _ _ _ Hch Hi) as (k & c & Hk & Hin).
    exists k, c. split; [done|]. split; [done|].
    intros k' c' Hk' Hin'. by apply (chained_unique _ _ _ _ _ _ _ _ Hch Hk' Hin' Hk Hin).
Qed.

(** X9.  The number of jobs that [TestGain] makes is the number of multiples of
    [limit / cores] below [limit], plus one.  It is never less than the
    number of cores, and it is the number of cores exactly when that number
    divides [limit]. *)
Theorem TestGain_jobs_count (cores limit : Z) (cells : list job) :
  1 ≤ cores ≤ limit → TestGain_jobs cores limit = Some cells →
  Z.of_nat (length cells) = (limit - 1) / (limit / cores) + 1 ∧
  cores ≤ Z.of_nat (length cells) ∧
  (Z.of_nat (length cells) = cores ↔ (cores | limit)).
Proof.
  intros Hc Hj. destruct (TestGain_jobs_Some _ _ Hc) as (cells' & Hj' & _ & Hlen & _).
  assert (cells' = cells) as -> by congruence.
  assert (0 < limit / cores) as Hd by (apply Z.div_str_pos; lia).
  split; [done|]. rewrite Hlen.
  pose proof (Z.div_mod limit cores ltac:(lia)) as Hlim.
  pose proof (Z.mod_pos_bound limit cores ltac:(lia)) as Hr.
  set (d := limit / cores) in *. set (r := limit mod cores) in *.
  assert (cores - 1 ≤ (limit - 1) / d) as Hlow.
  { apply Z.div_le_lower_bound; [done|]. nia. }
  split; [lia|]. split.
  - intros Heq. exists d.
    assert ((limit - 1) / d = cores - 1) as Hq by lia.
    pose proof (Z.mul_succ_div_gt (limit - 1) d Hd) as Hgt.
    rewrite Hq in Hgt. nia.
  - intros [q Hq].
    assert (r = 0) as Hr0.
    { unfold r. rewrite Hq. apply Z.mod_mul. lia. }
    assert ((limit - 1) / d = cores - 1); [|lia].
    symmetry. apply (Z.div_unique _ _ _ (d - 1)); nia.
Qed.

Lemma TestGain_rounds_panic (d : Z) (l : list Z) :
  foldl (TestGain_round d) None l = None.
Proof. by induction l. Qed.

(** X10.  With more cores than [limit], [limit / cores] is zero and the first
    round of the loop panics on [i % d]. *)
Theorem TestGain_jobs_panics (cores limit : Z) :
  2 ≤ limit → limit < cores → TestGain_jobs cores limit = None.
Proof.
  intros Hl Hc. unfold TestGain_jobs.
  rewrite Z.quot_small by lia.
  rewrite (seqZ_cons 1) by lia. simpl. by rewrite TestGain_rounds_panic.
Qed.

(** ** The jobs of [TestGain] on the pool *)

Lemma run_jobs_length (l : list JobTask) (h : list job) :
  length (foldl (λ m j, Execute j m) h l) = length h.
Proof.
  revert h. induction l as [|[p] l IH]; intros h; simpl; [done|].
  rewrite IH. apply length_alter.
Qed.

Lemma run_jobs_other (l : list JobTask) (h : list job) (k : nat) :
  PtrJob k ∉ l → foldl (λ m j, Execute j m) h l !! k = h !! k.
Proof.
  revert h. induction l as [|[p] l IH]; intros h Hk; simpl; [done|].
  apply not_elem_of_cons in Hk as [Hne Hk]. rewrite (IH _ Hk).
  apply list_lookup_alter_ne. congruence.
Qed.

Lemma run_jobs_lookup (l : list JobTask) (h : list job) (k : nat) (c : job) :
  PtrJob k ∈ l → h !! k = Some c →
  foldl (λ m j, Execute j m) h l !! k =
  Some (MkJob (job_start c) (job_stop c)
          (Some (sieve (job_start c) (job_stop c)))).
Proof.
  revert h c. induction l as [|[p] l IH]; intros h c Hin Hc.
  - by apply elem_of_nil in Hin.
  - change (foldl ?f h (PtrJob p :: l)) with (foldl f (job_Execute p h) l).
    destruct (decide (PtrJob k ∈ l)) as [Hin'|Hout].
    + destruct (decide (p = k)) as [->|Hne].
      * erewrite IH; [|done|by unfold job_Execute;
                          rewrite list_lookup_alter_eq, Hc]. done.
      * erewrite IH; [done|done|].
        unfold job_Execute. by rewrite list_lookup_alter_ne.
    + apply elem_of_cons in Hin as [[= ->]|?]; [|done].
      rewrite run_jobs_other by done.
      unfold job_Execute. by rewrite list_lookup_alter_eq, Hc.
Qed.

(** X11.  After a run of [RunBlocking] on the jobs of [TestGain] that was not
    cancelled, every number from 1 to [limit] is a key of the results of
    exactly one job, with the value that the serial loop of lines 173-176
    computes for it. *)
Theorem TestGain_parallel_results (n : nat) (cores limit : Z)
    (cells : list job) (s : State JobTask (list job)) :
  (0 < n)%nat → 1 ≤ cores ≤ limit → limit < 2 ^ 63 - 1 →
  TestGain_jobs cores limit = Some cells →
  reachable n (TestGain_tasks cells) cells s →
  returned s → cancels s = 0%nat →
  length (mem s) = length cells ∧
  ∀ i, 1 ≤ i ≤ limit →
    ∃ k c results,
      mem s !! k = Some c ∧ job_results c = Some results ∧
      results !! i = Some (isPrime (uint64 i)) ∧
      results !! i = sieve 1 limit !! i ∧
      ∀ k' c' results',
        mem s !! k' = Some c' → job_results c' = Some results' →
        is_Some (results' !! i) → k' = k.
Proof.
  intros Hn Hc _ Hj Hr Hret Hcan.
  pose proof (reachable_Inv _ _ _ _ Hn Hr) as HI.
  destruct (returned_complete _ _ _ _ Hn HI Hret Hcan) as (_ & _ & Hperm & Hmem).
  destruct (TestGain_jobs_partition _ _ Hc) as (cells' & Hj' & Hch & _ & _ & Hpart).
  assert (cells' = cells) as -> by congruence.
  assert (Hcell : ∀ k c, cells !! k = Some c →
            mem s !! k = Some (MkJob (job_start c) (job_stop c)
                                 (Some (sieve (job_start c) (job_stop c))))).
  { intros k c Hk. rewrite Hmem. apply run_jobs_lookup; [|done].
    rewrite Hperm. unfold TestGain_tasks. apply list_elem_of_fmap.
    exists k. split; [done|]. apply elem_of_seq.
    apply lookup_lt_Some in Hk. lia. }
  assert (Hlen : length (mem s) = length cells)
    by (rewrite Hmem; apply run_jobs_length).
  split; [done|]. intros i Hi.
  destruct (Hpart i Hi) as (k & c & Hk & Hin & Huniq).
  eexists k, _, _. split; [by apply Hcell|]. split; [done|].
  rewrite !sieve_lookup. rewrite !decide_True by lia.
  split; [done|]. split; [done|].
  intros k' c' results' Hk' Hres Hsome.
  destruct (lookup_lt_is_Some_2 cells k') as [c0 Hc0].
  { rewrite <- Hlen. by apply lookup_lt_Some in Hk'. }
  rewrite (Hcell _ _ Hc0) in Hk'. injection Hk' as <-.
  simpl in Hres. injection Hres as <-.
  rewrite sieve_lookup in Hsome.
  apply (Huniq k' c0 Hc0). case_decide; [done|]. by destruct Hsome.
Qed.
End SieveProofs.

(** * The two tests of [RunBlocking] *)

Section Tests.
Implicit Types (n : nat) (s : State TestTask Heap).

Lemma quiet_run_returns n (l : list TestTask) (h : Heap) s :
  0 < n → reachable n l h s → interrupted s = false →
  inevitably quiet
    (λ s', returned s' ∧ Inv n l h s' ∧ cancels s' = 0) s.
Proof.
  intros Hn Hr Hi. pose proof (reachable_Inv _ _ _ _ Hn Hr) as HI.
  eapply inevitably_mono;
    [|apply (inevitably_returned n l h quiet (λ s', interrupted s' = false));
      try done].
  - simpl. intros s' (Hret & HI' & Hi'). split; [done|]. split; [done|].
    by destruct (inv_int _ _ _ _ HI' Hi') as (_ & ? & _).
  - intros a s1 s2 Ha Hs1 Hst. by rewrite (step_quiet _ _ _ Hst Ha).
Qed.

Lemma TestRunBlocking_verdict n s :
  0 < n → Inv n initTests_testCases initTests_heap s → returned s →
  (TestRunBlocking_passes s = true ↔ cancels s = 0).
Proof.
  intros Hn HI Hret. unfold TestRunBlocking_passes.
  destruct (err_cancels _ _ _ _ HI) as [[-> Hc]|[-> Hc]]; [|by rewrite Hc].
  split; [done|]. intros _.
  destruct (returned_complete _ _ _ _ Hn HI Hret Hc) as (_ & _ & Hperm & Hmem).
  rewrite (inv_jobs _ _ _ _ HI). apply all_done_intro. intros t Ht.
  apply list_elem_of_fmap in Ht as (p & -> & Hp). apply elem_of_seq in Hp.
  exists p. split; [done|]. rewrite Hmem. apply run_all_sets.
  - rewrite Hperm. apply list_elem_of_fmap. exists p. split; [done|].
    by apply elem_of_seq.
  - unfold initTests_heap. rewrite length_replicate. lia.
Qed.

(** X12.  [TestRunBlocking] on the hundred tasks of [initTests]: when no SIGINT
    is delivered, [RunBlocking] returns on every schedule and the test
    passes, for any number of processors; and once [RunBlocking] has
    returned, the test passes exactly when the run was not cancelled. *)
Theorem TestRunBlocking_passes_unless_cancelled n s :
  0 < n → reachable n initTests_testCases initTests_heap s →
  (interrupted s = false →
   inevitably quiet
     (λ s', returned s' ∧ TestRunBlocking_passes s' = true) s) ∧
  (returned s → (TestRunBlocking_passes s = true ↔ cancels s = 0)).
Proof.
  intros Hn Hr. split.
  - intros Hi. eapply inevitably_mono; [|by apply quiet_run_returns].
    simpl. intros s' (Hret & HI' & Hc). split; [done|].
    by apply (TestRunBlocking_verdict n).
  - intros Hret.
    apply (TestRunBlocking_verdict n); [done| |done].
    by apply reachable_Inv.
Qed.

Lemma none_done_nopointer : none_done nopointer_tasks = true.
Proof. reflexivity. Qed.

(** X13.  [TestRunBlocking_nopointer] on its ten [dummyNop] values: when no
    SIGINT is delivered, [RunBlocking] returns on every schedule and the
    test passes, with the memory as it was; once [RunBlocking] has returned,
    the test passes exactly when the run was not cancelled. *)
Theorem TestRunBlocking_nopointer_passes_unless_cancelled n (h : Heap) s :
  0 < n → reachable n nopointer_tasks h s →
  mem s = h ∧
  (interrupted s = false →
   inevitably quiet
     (λ s', returned s' ∧ TestRunBlocking_nopointer_passes s' = true ∧
            mem s' = h) s) ∧
  (returned s →
   (TestRunBlocking_nopointer_passes s = true ↔ cancels s = 0)).
Proof.
  intros Hn Hr.
  assert (Hmem : ∀ s', Inv n nopointer_tasks h s' → mem s' = h).
  { intros s' HI'. apply list_eq. intros p.
    rewrite (inv_mem _ _ _ _ HI'). apply run_all_frame.
    intros Hin. apply (executed_in_tasks _ _ _ _ _ HI') in Hin.
    by apply (none_done_no_pointer _ _ none_done_nopointer) in Hin. }
  assert (Hverdict : ∀ s', Inv n nopointer_tasks h s' →
            (TestRunBlocking_nopointer_passes s' = true ↔ cancels s' = 0)).
  { intros s' HI'. unfold TestRunBlocking_nopointer_passes.
    rewrite (inv_jobs _ _ _ _ HI').
    destruct (err_cancels _ _ _ _ HI') as [[-> Hc]|[-> Hc]]; [|by rewrite Hc].
    by rewrite none_done_nopointer. }
  pose proof (reachable_Inv _ _ _ _ Hn Hr) as HI.
  split; [by apply Hmem|]. split.
  - intros Hi. eapply inevitably_mono; [|by apply quiet_run_returns].
    simpl. intros s' (Hret & HI' & Hc). split; [done|].
    split; [by apply Hverdict|by apply Hmem].
  - intros _. by apply Hverdict.
Qed.
End Tests.

Lemma TestTask_Execute_commute (t1 t2 : TestTask) (m : Heap) :
  Execute t2 (Execute t1 m) = Execute t1 (Execute t2 m).
Proof.
  destruct t1 as [p|v], t2 as [q|w]; try done.
  rewrite !Execute_pointer. destruct (decide (p = q)) as [->|Hne]; [done|].
  apply list_insert_insert_ne. congruence.
Qed.

(** * The further properties on runs of the tests' tasks *)

Lemma RunBlocking_empty_slice_witness :
  let s := default (start 2 [] demo_heap)
             (run_from_start 2 ([] : list TestTask) demo_heap
                [AProducer; AInterrupt; AProducer; ASpawner]) in
  sent s = [] ∧ executed s = [] ∧ mem s = demo_heap ∧ err s = None ∧
  polls s = 0 ∧
  inevitably any_action
    (λ s', returned s' ∧ err s' = None ∧ executed s' = [] ∧
           mem s' = demo_heap) s.
Proof.
  apply (RunBlocking_empty_slice 2 demo_heap).
  - lia.
  - exists [AProducer; AInterrupt; AProducer; ASpawner].
    vm_compute. reflexivity.
Defined.

Lemma late_interrupt_is_lost_witness :
  inevitably any_action
    (λ s', returned s' ∧ err s' = None ∧ sent s' = demo_tasks ∧
           executed s' ≡ₚ demo_tasks ∧
           mem s' = foldl (λ m j, Execute j m) demo_heap (executed s'))
    (demo_state (take 10 quiet_schedule ++ [AInterrupt])).
Proof.
  apply (late_interrupt_is_lost 2 demo_tasks demo_heap).
  - lia.
  - exists (take 10 quiet_schedule ++ [AInterrupt]). vm_compute. reflexivity.
  - vm_compute. split; [reflexivity|exact I].
Defined.

Lemma producer_lead_bounded_witness :
  let s := demo_state (take 9 quiet_schedule) in
  length (sent s) =
    length (executed s) + length (workers s ≫= inflight) +
    length (buf (jobsQueue s)) ∧
  length (workers s ≫= inflight) ≤ 2 ∧
  length (buf (jobsQueue s)) ≤ 2 ∧
  length (sent s) ≤ length (executed s) + 2 * 2.
Proof.
  apply (producer_lead_bounded 2 demo_tasks demo_heap).
  - lia.
  - exists (take 9 quiet_schedule). vm_compute. reflexivity.
Defined.

Lemma returned_memory_is_serial_witness :
  let s := demo_state (cancel_schedule ++ drain_schedule) in
  mem s = foldl (λ m j, Execute j m) demo_heap (sent s) ∧
  sent s = take (length (sent s)) demo_tasks ∧
  (cancels s = 0 → mem s = foldl (λ m j, Execute j m) demo_heap demo_tasks).
Proof.
  apply (returned_memory_is_serial 2 demo_tasks demo_heap).
  - apply TestTask_Execute_commute.
  - lia.
  - exists (cancel_schedule ++ drain_schedule). vm_compute. reflexivity.
  - vm_compute. reflexivity.
Defined.

Lemma isPrime_correct_witness :
  @isPrime exact_sqrt 97 = true ↔ (97 ≤ 2)%Z ∨ Z.prime 97.
Proof.
  apply (@isPrime_correct exact_sqrt 97).
  - lia.
  - reflexivity.
Defined.

Lemma job_Execute_results_witness :
  ∃ c' results,
    @Execute _ _ (@JobTask_Tasker exact_sqrt) (PtrJob 0) gain_cells !! 0
      = Some c' ∧
    job_start c' = 1%Z ∧ job_stop c' = 2%Z ∧
    job_results c' = Some results ∧
    (∀ i, results !! i =
          if decide (1 ≤ i ≤ 2)%Z
          then Some (@isPrime exact_sqrt (uint64 i)) else None) ∧
    ((2 < 1)%Z → results = ∅) ∧
    (∀ k, k ≠ 0 →
          @Execute _ _ (@JobTask_Tasker exact_sqrt) (PtrJob 0) gain_cells !! k
          = gain_cells !! k) ∧
    length (@Execute _ _ (@JobTask_Tasker exact_sqrt) (PtrJob 0) gain_cells)
      = length gain_cells ∧
    @Execute _ _ (@JobTask_Tasker exact_sqrt) (PtrJob 0)
      (@Execute _ _ (@JobTask_Tasker exact_sqrt) (PtrJob 0) gain_cells)
    = @Execute _ _ (@JobTask_Tasker exact_sqrt) (PtrJob 0) gain_cells.
Proof.
  apply (@job_Execute_results exact_sqrt 0 gain_cells (MkJob 1 2 None)).
  - reflexivity.
  - simpl. lia.
Defined.

Lemma TestGain_jobs_partition_witness :
  ∃ cells,
    TestGain_jobs 2 4 = Some cells ∧
    chained 1 cells 4 ∧
    Forall (λ c, job_results c = None) cells ∧
    (∀ k c, cells !! k = Some c →
            (1 ≤ job_start c ∧ job_start c ≤ job_stop c ∧ job_stop c ≤ 4)%Z) ∧
    (∀ i, (1 ≤ i ≤ 4)%Z →
          ∃ k c, cells !! k = Some c ∧ (job_start c ≤ i ≤ job_stop c)%Z ∧
                 ∀ k' c', cells !! k' = Some c' →
                          (job_start c' ≤ i ≤ job_stop c')%Z → k' = k).
Proof. apply (TestGain_jobs_partition 2 4). lia. Defined.

Lemma TestGain_jobs_count_witness :
  Z.of_nat (length gain_cells) = ((4 - 1) / (4 / 2) + 1)%Z ∧
  (2 ≤ Z.of_nat (length gain_cells))%Z ∧
  (Z.of_nat (length gain_cells) = 2%Z ↔ (2 | 4)%Z).
Proof.
  apply (TestGain_jobs_count 2 4 gain_cells).
  - lia.
  - vm_compute. reflexivity.
Defined.

Lemma TestGain_jobs_panics_witness : TestGain_jobs 5 4 = None.
Proof. apply (TestGain_jobs_panics 5 4); lia. Defined.

Lemma TestGain_parallel_results_witness :
  length (mem gain_state) = length gain_cells ∧
  ∀ i, (1 ≤ i ≤ 4)%Z →
    ∃ k c results,
      mem gain_state !! k = Some c ∧ job_results c = Some results ∧
      results !! i = Some (@isPrime exact_sqrt (uint64 i)) ∧
      results !! i = @sieve exact_sqrt 1 4 !! i ∧
      ∀ k' c' results',
        mem gain_state !! k' = Some c' → job_results c' = Some results' →
        is_Some (results' !! i) → k' = k.
Proof.
  apply (@TestGain_parallel_results exact_sqrt 1 2 4 gain_cells gain_state).
  - lia.
  - lia.
  - lia.
  - vm_compute. reflexivity.
  - exists gain_schedule. vm_compute. reflexivity.
  - vm_compute. reflexivity.
  - vm_compute. reflexivity.
Defined.

Lemma TestRunBlocking_passes_unless_cancelled_witness :
  let s := start 4 initTests_testCases initTests_heap in
  (interrupted s = false →
   inevitably quiet
     (λ s', returned s' ∧ TestRunBlocking_passes s' = true) s) ∧
  (returned s → (TestRunBlocking_passes s = true ↔ cancels s = 0)).
Proof.
  apply (TestRunBlocking_passes_unless_cancelled 4).
  - lia.
  - exists []. reflexivity.
Defined.

Lemma TestRunBlocking_nopointer_passes_unless_cancelled_witness :
  let s := start 4 nopointer_tasks demo_heap in
  mem s = demo_heap ∧
  (interrupted s = false →
   inevitably quiet
     (λ s', returned s' ∧ TestRunBlocking_nopointer_passes s' = true ∧
            mem s' = demo_heap) s) ∧
  (returned s →
   (TestRunBlocking_nopointer_passes s = true ↔ cancels s = 0)).
Proof.
  apply (TestRunBlocking_nopointer_passes_unless_cancelled 4 demo_heap).
  - lia.
  - exists []. reflexivity.
Defined.

(** * After the return *)

Section Quiescence.
Context {T M : Type} `{!Tasker T M}.
Implicit Types (s : State T M) (n : nat) (tasks : list T).

(** X5.  Once [RunBlocking] has returned, nothing of the run is left running:
    [populateQueue] and [parallelizeWorkers] have returned and every worker
    has exited, so that the only transition still possible is the runtime
    putting a SIGINT into [signalChan], which no one reads any more; it
    changes neither the memory nor the result. *)
Theorem nothing_runs_after_return n tasks (m0 : M) s :
  0 < n → reachable n tasks m0 s → returned s →
  ppc s = PReturned ∧ spawn_i s = n ∧
  Forall (λ w, wpc w = WExit) (workers s) ∧
  ∀ a s', step a s = Some s' →
          a = AInterrupt ∧ returned s' ∧ mem s' = mem s ∧ err s' = err s ∧
          executed s' = executed s ∧ workers s' = workers s ∧
          ppc s' = ppc s ∧ jobsQueue s' = jobsQueue s ∧
          doneChan s' = doneChan s.
Proof.
  intros Hn Hr Hret. pose proof (reachable_Inv _ _ _ _ Hn Hr) as HI.
  destruct (returned_AtReturn _ _ _ _ Hn HI Hret).
  destruct (inv_spawn _ _ _ _ HI) as [Hsp _].
  pose proof (inv_wn _ _ _ _ HI) as Hwn.
  assert (Hexit : Forall (λ w, wpc w = WExit) (workers s)).
  { eapply Forall_impl; [exact ret_exited0|]. simpl. tauto. }
  split; [done|]. split; [lia|]. split; [done|].
  intros a s' Hs. unfold step in Hs. rewrite (inv_nopanic _ _ _ _ HI) in Hs.
  destruct a as [| | |i| |].
  - unfold interrupt_step in Hs. rewrite ret_producer0 in Hs.
    destruct (chan_send (signalChan s) ()) as [q| |]; [|done..].
    by injection Hs as <-.
  - unfold producer_step in Hs. by rewrite ret_producer0 in Hs.
  - unfold spawner_step in Hs.
    destruct (Nat.ltb_spec (spawn_i s) (workersNumber s)); [lia|done].
  - unfold worker_step in Hs.
    destruct (workers s !! i) as [w|] eqn:Hw; [|done].
    by rewrite (Forall_lookup_1 _ _ _ _ Hexit Hw) in Hs.
  - unfold coord_done_step in Hs. unfold returned in Hret.
    by rewrite Hret in Hs.
  - unfold coord_premature_step in Hs. unfold returned in Hret.
    by rewrite Hret in Hs.
Qed.
End Quiescence.

Lemma nothing_runs_after_return_witness :
  let s := demo_state quiet_schedule in
  ppc s = PReturned ∧ spawn_i s = 2 ∧
  Forall (λ w, wpc w = WExit) (workers s) ∧
  ∀ a s', step a s = Some s' →
          a = AInterrupt ∧ returned s' ∧ mem s' = mem s ∧ err s' = err s ∧
          executed s' = executed s ∧ workers s' = workers s ∧
          ppc s' = ppc s ∧ jobsQueue s' = jobsQueue s ∧
          doneChan s' = doneChan s.
Proof.
  apply (nothing_runs_after_return 2 demo_tasks demo_heap).
  - lia.
  - exists quiet_schedule. vm_compute. reflexivity.
  - vm_compute. reflexivity.
Defined.
